(** * Shallow embedding of the hartea analysis engine

    Sources: internal/har/comparator.go (Comparator), the analyzer
    (CalculateMetrics, GenerateTimeline, GetSlowestRequests,
    GetLargestRequests, GetErrorRequests, GetResourcesByType), the TUI
    waterfall renderer (RenderWaterfall, renderRequestBar), the TUI entry
    table and filter (updateTableRows, filterEntries, matchesFilter,
    contains, truncateValue, truncateURL), internal/har/parser.go
    (ValidateHAR) and Go 1.24's [sort.Slice] (pdqsort), which the analyzer
    calls.

    Modelling conventions.
    - Go [int]/[int64] values are modelled as [Z] with the 64-bit
      wrap-around ([wrap64]) written out for the duration products, the
      total transfer size, the size comparison and the bar arithmetic of
      renderRequestBar; the request counts compared by [intChange] stay
      far inside the 64-bit range.
    - float64 -> int conversions are those of Go on amd64 ([goInt]): an
      out-of-range value converts to minInt64 (arm64 saturates instead).
    - Go [float64] values are modelled as exact rationals [Q]. Rounding is
      not modelled; the claims below are about integer-valued sums,
      comparisons with exact zero, a single quotient, or truncation.
    - [fmt.Sprintf("%.1f", x)] is kept abstract as the section variable
      [fmt1f]: every statement holds for any formatting of that verb.
    - [time.Time] is an instant in nanoseconds ([Z]); [time.Duration] is a
      number of nanoseconds.
    - A Go slice is a [list]; the slice that sort.Slice permutes is a list
      updated by [swap]. *)

From Stdlib Require Import ZArith QArith Qabs Qminmax List String Ascii Bool Lia Permutation Sorted.
Import ListNotations.

Open Scope Z_scope.

(* ------------------------------------------------------------------ *)
(** ** Go helpers *)

(** Index-aware map: [for i, x := range xs { out[i] = f(i, x) }]. *)
Fixpoint imap_from {A B} (f : nat -> A -> B) (k : nat) (l : list A) : list B :=
  match l with
  | [] => []
  | x :: r => f k x :: imap_from f (S k) r
  end.

Definition imap {A B} (f : nat -> A -> B) (l : list A) : list B := imap_from f 0 l.

(** Decimal digits of a non-negative integer. *)
Fixpoint digits_aux (fuel : nat) (n : Z) (acc : string) : string :=
  match fuel with
  | O => acc
  | S f =>
      let acc' := String (ascii_of_nat (48 + Z.to_nat (n mod 10))) acc in
      if n / 10 =? 0 then acc' else digits_aux f (n / 10) acc'
  end.

(** [fmt.Sprintf("%d", z)]. *)
Definition fmt_d (z : Z) : string :=
  let fuel := S (Z.to_nat (Z.log2 (Z.abs z))) in
  if z <? 0 then String "-" (digits_aux fuel (- z) EmptyString)
  else digits_aux fuel z EmptyString.

(** Strict order on float64 values. *)
Definition qltb (x y : Q) : bool := negb (Qle_bool y x).

Definition minInt64 : Z := - 2 ^ 63.
Definition maxInt64 : Z := 2 ^ 63 - 1.

(** Two's-complement wrap-around of an int64 result. *)
Definition wrap64 (z : Z) : Z := (z + 2 ^ 63) mod 2 ^ 64 - 2 ^ 63.

(** [strings.Contains(s, sub)]. *)
Fixpoint contains (s sub : string) : bool :=
  prefix sub s ||
  match s with
  | EmptyString => false
  | String _ s' => contains s' sub
  end.

(* ------------------------------------------------------------------ *)
(** ** Metrics (analyzer.go) *)

Record Metrics := mkMetrics {
  TotalRequests : Z;
  TotalTime : Q;
  TotalSize : Z;
  TTFB : Q;
  PageLoadTime : Q;
  DNSTime : Q;
  ConnectTime : Q;
  SSLTime : Q;
  FirstContentfulPaint : Q;
  LargestContentfulPaint : Q;
  CacheHitRatio : Q;
  ThirdPartyRequests : Z;
  ErrorRequests : Z
}.

(** The zero value [Metrics{}]. *)
Definition zeroMetrics : Metrics :=
  mkMetrics 0 0 0 0 0 0 0 0 0 0 0 0 0.

(* ------------------------------------------------------------------ *)
(** ** Comparator (comparator.go) *)

Record MetricDifference := mkDiff {
  Name : string;
  Values : list string;
  Changes : list string;
  Improvements : list bool
}.

Record ComparisonSummary := mkSummary {
  BetterCount : Z;
  WorseCount : Z;
  UnchangedCount : Z;
  TotalMetrics : Z
}.

Record Comparison := mkComparison {
  Files : list string;
  CMetrics : list Metrics;
  Differences : list MetricDifference;
  Summary : ComparisonSummary
}.

Definition zeroSummary : ComparisonSummary := mkSummary 0 0 0 0.

Definition extractPageLoadTime (m : Metrics) : Q := PageLoadTime m.
Definition extractTTFB (m : Metrics) : Q := TTFB m.
Definition extractDNSTime (m : Metrics) : Q := DNSTime m.
Definition extractConnectTime (m : Metrics) : Q := ConnectTime m.
Definition extractSSLTime (m : Metrics) : Q := SSLTime m.
Definition extractTotalRequests (m : Metrics) : Z := TotalRequests m.
Definition extractErrorRequests (m : Metrics) : Z := ErrorRequests m.
Definition extractThirdPartyRequests (m : Metrics) : Z := ThirdPartyRequests m.
Definition extractCacheHitRatio (m : Metrics) : Q := CacheHitRatio m.
Definition extractTotalSize (m : Metrics) : Z := TotalSize m.

Definition timingMetrics : list string :=
  ["Total Load Time"; "Time to First Byte"; "Average DNS Time";
   "Average Connect Time"; "Average SSL Time"]%string.

Definition isImprovementFloat (metricName : string) (change : Q) : bool :=
  if existsb (String.eqb metricName) timingMetrics then qltb change 0
  else if String.eqb metricName "Cache Hit Ratio" then qltb 0 change
  else false.

Definition isImprovementInt (metricName : string) (change : Z) : bool :=
  if String.eqb metricName "Error Requests"
     || String.eqb metricName "Third-party Requests" then change <? 0
  else false.

(** How calculateSummary's loop body classifies one cell. *)
Inductive Verdict := Better | Worse | Unchanged.

Definition verdict (change : string) (improvement : bool) : Verdict :=
  if String.eqb change "No change" then Unchanged
  else if improvement then Better
  else Worse.

Section Comparator.

(** Go's [%.1f] verb. *)
Variable fmt1f : Q -> string.

Definition formatSize (size : Z) : string :=
  if size <? 1024 then (fmt_d size ++ "B")%string
  else if size <? 1024 * 1024 then (fmt1f (inject_Z size / 1024) ++ "KB")%string
  else (fmt1f (inject_Z size / (1024 * 1024)) ++ "MB")%string.

(** Body of compareFloat's loop for a column [i > 0]: (changes[i], improvements[i]). *)
Definition floatChange (name : string) (baseValue value : Q) : string * bool :=
  let change := (value - baseValue)%Q in
  let changePercent :=
    if negb (Qeq_bool baseValue 0) then ((change / baseValue) * 100)%Q else 0%Q in
  if qltb (Qabs changePercent) (1 # 10) then ("No change"%string, false)
  else if qltb 0 changePercent then
    (("+" ++ fmt1f changePercent ++ "%")%string, isImprovementFloat name change)
  else ((fmt1f changePercent ++ "%")%string, isImprovementFloat name change).

Definition intChange (name : string) (baseValue value : Z) : string * bool :=
  let change := value - baseValue in
  let changePercent :=
    if negb (baseValue =? 0)
    then ((inject_Z change / inject_Z baseValue) * 100)%Q else 0%Q in
  if change =? 0 then ("No change"%string, false)
  else if change >? 0 then
    (("+" ++ fmt_d change ++ " (+" ++ fmt1f changePercent ++ "%)")%string,
     isImprovementInt name change)
  else ((fmt_d change ++ " (" ++ fmt1f changePercent ++ "%)")%string,
        isImprovementInt name change).

Definition sizeChange (baseValue value : Z) : string * bool :=
  let change := wrap64 (value - baseValue) in
  let changePercent :=
    if negb (baseValue =? 0)
    then ((inject_Z change / inject_Z baseValue) * 100)%Q else 0%Q in
  if change =? 0 then ("No change"%string, false)
  else if change >? 0 then
    (("+" ++ formatSize change ++ " (+" ++ fmt1f changePercent ++ "%)")%string,
     change <? 0)
  else (("-" ++ formatSize (wrap64 (- change)) ++ " (" ++ fmt1f changePercent ++ "%)")%string,
        change <? 0).

(** Shared shape of the three compare functions: column 0 is "Baseline",
    every later column is compared with [metrics[0]]. *)
Definition column {V} (cell : V -> V -> string * bool) (base : V)
    (i : nat) (value : V) : string * bool :=
  match i with
  | O => ("Baseline"%string, false)
  | S _ => cell base value
  end.

Definition compareFloat (ms : list Metrics) (name unit : string)
    (extractor : Metrics -> Q) : MetricDifference :=
  match ms with
  | [] => mkDiff name [] [] []
  | m0 :: _ =>
      let cells := imap (fun i m => column (floatChange name) (extractor m0) i (extractor m)) ms in
      mkDiff name
        (map (fun m => fmt1f (extractor m) ++ unit)%string ms)
        (map fst cells) (map snd cells)
  end.

Definition compareInt (ms : list Metrics) (name unit : string)
    (extractor : Metrics -> Z) : MetricDifference :=
  match ms with
  | [] => mkDiff name [] [] []
  | m0 :: _ =>
      let cells := imap (fun i m => column (intChange name) (extractor m0) i (extractor m)) ms in
      mkDiff name
        (map (fun m => if String.eqb unit "" then fmt_d (extractor m)
                       else (fmt_d (extractor m) ++ " " ++ unit)%string) ms)
        (map fst cells) (map snd cells)
  end.

Definition compareSize (ms : list Metrics) (name : string)
    (extractor : Metrics -> Z) : MetricDifference :=
  match ms with
  | [] => mkDiff name [] [] []
  | m0 :: _ =>
      let cells := imap (fun i m => column sizeChange (extractor m0) i (extractor m)) ms in
      mkDiff name (map (fun m => formatSize (extractor m)) ms)
        (map fst cells) (map snd cells)
  end.

(** Inner loop of calculateSummary: [for i := 1; i < len(diff.Improvements); i++]. *)
Fixpoint tallyColumns (i : nat) (n : nat) (d : MetricDifference)
    (acc : Z * Z * Z) : Z * Z * Z :=
  match n with
  | O => acc
  | S n' =>
      let '(better, worse, unchanged) := acc in
      let acc' :=
        match verdict (nth i (Changes d) EmptyString) (nth i (Improvements d) false) with
        | Unchanged => (better, worse, unchanged + 1)
        | Better => (better + 1, worse, unchanged)
        | Worse => (better, worse + 1, unchanged)
        end in
      tallyColumns (S i) n' d acc'
  end.

Definition calculateSummary (differences : list MetricDifference) : ComparisonSummary :=
  let '(better, worse, unchanged) :=
    fold_left (fun acc d => tallyColumns 1 (List.length (Improvements d) - 1) d acc)
      differences (0, 0, 0) in
  mkSummary better worse unchanged (better + worse + unchanged).

Definition Compare (files : list string) (ms : list Metrics) : Comparison :=
  if (List.length ms <? 2)%nat then mkComparison files ms [] zeroSummary
  else
    let differences :=
      [compareFloat ms "Total Load Time" "ms" extractPageLoadTime;
       compareFloat ms "Time to First Byte" "ms" extractTTFB;
       compareFloat ms "Average DNS Time" "ms" extractDNSTime;
       compareFloat ms "Average Connect Time" "ms" extractConnectTime;
       compareFloat ms "Average SSL Time" "ms" extractSSLTime;
       compareInt ms "Total Requests" "" extractTotalRequests;
       compareInt ms "Error Requests" "" extractErrorRequests;
       compareInt ms "Third-party Requests" "" extractThirdPartyRequests;
       compareFloat ms "Cache Hit Ratio" "%" extractCacheHitRatio;
       compareSize ms "Total Transfer Size" extractTotalSize]%string in
    mkComparison files ms differences (calculateSummary differences).

End Comparator.

(** The six floating-point rows of [Compare], as (name, unit, extractor). *)
Definition floatRows : list (string * string * (Metrics -> Q)) :=
  [("Total Load Time", "ms", extractPageLoadTime);
   ("Time to First Byte", "ms", extractTTFB);
   ("Average DNS Time", "ms", extractDNSTime);
   ("Average Connect Time", "ms", extractConnectTime);
   ("Average SSL Time", "ms", extractSSLTime);
   ("Cache Hit Ratio", "%", extractCacheHitRatio)]%string.

(* ------------------------------------------------------------------ *)
(** ** HAR entries (types.go) and time (package time) *)

(** Truncation toward zero: Go's float64 -> int conversion on values in
    the int64 range. *)
Definition qtrunc (q : Q) : Z := Z.quot (Qnum q) (Zpos (Qden q)).

(** The conversion [int(x)] of a float64 [x] as compiled for amd64
    (CVTTSD2SQ): when the truncated value lies outside the int64 range the
    result is the "integer indefinite" value 0x8000000000000000, i.e.
    minInt64. *)
Definition goInt (q : Q) : Z :=
  let t := qtrunc q in
  if (minInt64 <=? t) && (t <=? maxInt64) then t else minInt64.

(** [time.Duration(ms) * time.Millisecond], in nanoseconds. *)
Definition durationMs (ms : Q) : Z := wrap64 (goInt ms * 1000000).

(** [t.Sub(u)]: the difference saturates at the int64 bounds. *)
Definition timeSub (t u : Z) : Z := Z.max minInt64 (Z.min maxInt64 (t - u)).

(** [d.Seconds() * 1000]: a duration in milliseconds. *)
Definition durationToMs (d : Z) : Q := (inject_Z d / inject_Z 1000000000 * 1000)%Q.

(** The zero [time.Time] (January 1, year 1, UTC) in Unix nanoseconds. *)
Definition zeroTime : Z := -62135596800 * 1000000000.

Record Timings := mkTimings {
  Blocked : Z; DNS : Z; Connect : Z; Send : Z; Wait : Z; Receive : Z; SSL : Z
}.

Record Request := mkRequest { Method : string; URL : string }.

Record Content := mkContent { Size : Z; MimeType : string }.

Record Response := mkResponse { Status : Z; RContent : Content }.

(** [Cache.BeforeRequest] is a pointer: [None] is nil. *)
Record Cache := mkCache { BeforeRequest : option unit }.

(** Field [Time] of the Go struct is [EntryTime] (elapsed milliseconds). *)
Record Entry := mkEntry {
  StartedDateTime : Z;
  EntryTime : Q;
  ERequest : Request;
  EResponse : Response;
  ECache : Cache;
  ETimings : Timings
}.

Record Page := mkPage { OnLoad : Z }.

Record HARLog := mkLog { Pages : list Page; Entries : list Entry }.

(* ------------------------------------------------------------------ *)
(** ** CalculateMetrics (analyzer.go) *)

Definition thirdPartyDomains : list string :=
  ["googleapis.com"; "googletagmanager.com"; "facebook.com"; "twitter.com";
   "analytics.google.com"; "doubleclick.net"; "amazon.com"; "cdn."; "cdnjs."]%string.

Definition isThirdParty (url : string) : bool :=
  existsb (contains url) thirdPartyDomains.

(** Local variables of CalculateMetrics' loop. *)
Record MState := mkMState {
  totalSize : Z;
  totalTime : Q;
  dnsTime : Q;
  connectTime : Q;
  sslTime : Q;
  cacheHits : Z;
  errorRequests : Z;
  thirdPartyRequests : Z;
  firstByte : Q
}.

Definition mstate0 : MState := mkMState 0 0 0 0 0 0 0 0 (-1).

(** One iteration of [for _, entry := range entries]. *)
Definition metricsStep (st : MState) (entry : Entry) : MState :=
  let t := ETimings entry in
  mkMState
    (wrap64 (totalSize st + Size (RContent (EResponse entry))))
    (totalTime st + EntryTime entry)%Q
    (if DNS t >? 0 then (dnsTime st + inject_Z (DNS t))%Q else dnsTime st)
    (if Connect t >? 0 then (connectTime st + inject_Z (Connect t))%Q else connectTime st)
    (if SSL t >? 0 then (sslTime st + inject_Z (SSL t))%Q else sslTime st)
    (match BeforeRequest (ECache entry) with
     | Some _ => cacheHits st + 1 | None => cacheHits st end)
    (if Status (EResponse entry) >=? 400 then errorRequests st + 1 else errorRequests st)
    (if isThirdParty (URL (ERequest entry)) then thirdPartyRequests st + 1
     else thirdPartyRequests st)
    (if Qeq_bool (firstByte st) (-1)
        || ((Wait t >? 0) && qltb (inject_Z (Wait t)) (firstByte st))
     then inject_Z (Wait t) else firstByte st).

(** Loop of calculateEstimatedPageLoadTime: (minStartTime, maxEndTime). *)
Definition pageBoundsStep (acc : Z * Z) (entry : Entry) : Z * Z :=
  let '(minStartTime, maxEndTime) := acc in
  let minStartTime' :=
    if StartedDateTime entry <? minStartTime then StartedDateTime entry else minStartTime in
  let endTime := StartedDateTime entry + durationMs (EntryTime entry) in
  (minStartTime', if endTime >? maxEndTime then endTime else maxEndTime).

Definition calculateEstimatedPageLoadTime (log : HARLog) : Q :=
  match Entries log with
  | [] => 0%Q
  | e0 :: _ =>
      let '(minStartTime, maxEndTime) :=
        fold_left pageBoundsStep (Entries log) (StartedDateTime e0, zeroTime) in
      durationToMs (timeSub maxEndTime minStartTime)
  end.

Definition CalculateMetrics (log : HARLog) : Metrics :=
  let entries := Entries log in
  match entries with
  | [] => zeroMetrics
  | _ :: _ =>
      let pageLoad :=
        match Pages log with
        | page :: _ => if OnLoad page >? 0 then inject_Z (OnLoad page) else 0%Q
        | [] => 0%Q
        end in
      let st := fold_left metricsStep entries mstate0 in
      let n := inject_Z (Z.of_nat (List.length entries)) in
      {| TotalRequests := Z.of_nat (List.length entries);
         TotalTime := totalTime st;
         TotalSize := totalSize st;
         TTFB := firstByte st;
         PageLoadTime :=
           if Qeq_bool pageLoad 0 then calculateEstimatedPageLoadTime log else pageLoad;
         DNSTime := (dnsTime st / n)%Q;
         ConnectTime := (connectTime st / n)%Q;
         SSLTime := (sslTime st / n)%Q;
         FirstContentfulPaint := 0;
         LargestContentfulPaint := 0;
         CacheHitRatio := (inject_Z (cacheHits st) / n * 100)%Q;
         ThirdPartyRequests := thirdPartyRequests st;
         ErrorRequests := errorRequests st |}
  end.

(* ------------------------------------------------------------------ *)
(** ** TimelineEvent (analyzer.go) *)

Module TE.
Record TimelineEvent := mkEvent {
  Index : Z;
  URL : string;
  Method : string;
  Status : Z;
  StartTime : Z;
  Duration : Q;
  Size : Z;
  ContentType : string
}.
End TE.
Import TE (TimelineEvent, mkEvent).

(* ------------------------------------------------------------------ *)
(** ** Waterfall layout (tui: RenderWaterfall, renderRequestBar) *)

Record TimelineRenderer := mkRenderer {
  rwidth : Z;
  rheight : Z;
  pixelScale : Q;
  rstartTime : Z;
  rendTime : Z
}.

(** Loop of RenderWaterfall computing [tr.startTime] and [tr.endTime]. *)
Definition boundsStep (acc : Z * Z) (event : TimelineEvent) : Z * Z :=
  let '(startTime, endTime) := acc in
  let startTime' :=
    if TE.StartTime event <? startTime then TE.StartTime event else startTime in
  let evEnd := TE.StartTime event + durationMs (TE.Duration event) in
  (startTime', if evEnd >? endTime then evEnd else endTime).

Definition waterfallBounds (ev0 : TimelineEvent) (timeline : list TimelineEvent) : Z * Z :=
  fold_left boundsStep timeline (TE.StartTime ev0, TE.StartTime ev0).

(** [totalDuration] of RenderWaterfall, before and after its guard. *)
Definition rawTotalDuration (startTime endTime : Z) : Q :=
  durationToMs (timeSub endTime startTime).

Definition totalDurationOf (startTime endTime : Z) : Q :=
  let totalDuration := rawTotalDuration startTime endTime in
  if Qle_bool totalDuration 0 then 1000%Q else totalDuration.

Definition chartWidthOf (width : Z) : Z :=
  let chartWidth := wrap64 (width - 35) in
  if chartWidth <? 20 then 20 else chartWidth.

(** Pixel layout computed by renderRequestBar before it draws:
    (startPos, duration). The conversions and the int sums are those of
    Go on amd64: [startPos+duration] and [chartWidth - startPos] wrap. *)
Definition barLayout (tr : TimelineRenderer) (event : TimelineEvent)
    (chartWidth : Z) : Z * Z :=
  let requestStart := durationToMs (timeSub (TE.StartTime event) (rstartTime tr)) in
  let requestDuration := TE.Duration event in
  let startPos := goInt (requestStart / pixelScale tr) in
  let duration := goInt (requestDuration / pixelScale tr) in
  let duration := if duration <? 1 then 1 else duration in
  let startPos := if startPos >=? chartWidth then chartWidth - 1 else startPos in
  let duration :=
    if wrap64 (startPos + duration) >? chartWidth
    then wrap64 (chartWidth - startPos) else duration in
  (startPos, duration).

(** renderRequestBar: [None] is a run-time panic (index out of range) in
    one of its two writes to [timeline], a slice of [chartWidth] runes:
    - the bar loop [for i := startPos; i < startPos+duration && i <
      chartWidth; i++] writes [timeline[startPos]] first, which panics
      when [startPos < 0];
    - the outcome marker [timeline[startPos+duration]] is written when
      [startPos+duration < chartWidth], which panics when that sum is
      negative.
    Otherwise [Some (startPos, duration)], the columns of the bar. *)
Definition renderRequestBar (tr : TimelineRenderer) (event : TimelineEvent)
    (chartWidth : Z) : option (Z * Z) :=
  let '(startPos, duration) := barLayout tr event chartWidth in
  let barEnd := wrap64 (startPos + duration) in
  if (startPos <? barEnd) && (startPos <? chartWidth) && (startPos <? 0) then None
  else if (barEnd <? chartWidth) && (barEnd <? 0) then None
  else Some (startPos, duration).

(** RenderWaterfall: [None] is the "No timeline data available" result;
    otherwise the updated renderer, the chart width and the outcome of
    renderRequestBar for each request shown, in order. The chart is drawn
    when every outcome is [Some]; otherwise Go panics at the first [None]. *)
Definition RenderWaterfall (tr : TimelineRenderer) (timeline : list TimelineEvent)
    : option (TimelineRenderer * Z * list (option (Z * Z))) :=
  match timeline with
  | [] => None
  | ev0 :: _ =>
      let '(startTime, endTime) := waterfallBounds ev0 timeline in
      let totalDuration := totalDurationOf startTime endTime in
      let chartWidth := chartWidthOf (rwidth tr) in
      let tr' := mkRenderer (rwidth tr) (rheight tr)
                   (totalDuration / inject_Z chartWidth)%Q startTime endTime in
      let maxEntries := rheight tr - 8 in
      let entriesToShow :=
        if Z.of_nat (List.length timeline) >? maxEntries then maxEntries
        else Z.of_nat (List.length timeline) in
      let shown := firstn (Z.to_nat entriesToShow) timeline in
      Some (tr', chartWidth, map (fun event => renderRequestBar tr' event chartWidth) shown)
  end.

(** Sample entries: a GET of [url] started at [start] ns, with the given
    status, wait and DNS/connect/SSL phases and elapsed time [ms]. *)
Definition sampleEntry (url : string) (start : Z) (ms : Q) (status wait dns connect ssl : Z)
    : Entry :=
  mkEntry start ms (mkRequest "GET" url) (mkResponse status (mkContent 1000 "text/html"))
    (mkCache None) (mkTimings 0 dns connect 1 wait 1 ssl).

(* ------------------------------------------------------------------ *)
(** ** sort.Slice (Go 1.24 sort/slice.go and sort/zsortfunc.go)

    [sort.Slice(x, less)] runs pattern-defeating quicksort [pdqsort_func]
    over the slice through [less] and [swap]. The slice is a list; the
    [less] closure of the caller compares the integer keys of two
    positions. Each Go loop is a recursive function whose [nat] argument
    bounds its number of iterations. The algorithm only swaps and compares
    positions inside the range it sorts. *)

Section GoSort.

Variable A : Type.
Variable key : A -> Z.

Definition get (l : list A) (i : Z) : option A :=
  if i <? 0 then None else nth_error l (Z.to_nat i).

(** [data.Less(i, j)]. *)
Definition lessAt (l : list A) (i j : Z) : bool :=
  match get l i, get l j with
  | Some x, Some y => key x <? key y
  | _, _ => false
  end.

Fixpoint upd (l : list A) (n : nat) (x : A) : list A :=
  match l, n with
  | [], _ => []
  | _ :: r, O => x :: r
  | y :: r, S n' => y :: upd r n' x
  end.

(** [data.Swap(i, j)]. *)
Definition swap (l : list A) (i j : Z) : list A :=
  match get l i, get l j with
  | Some x, Some y => upd (upd l (Z.to_nat i) y) (Z.to_nat j) x
  | _, _ => l
  end.

(** insertionSort_func *)
Fixpoint insertionShift (fuel : nat) (l : list A) (a j : Z) : list A :=
  match fuel with
  | O => l
  | S f =>
      if (j >? a) && lessAt l j (j - 1)
      then insertionShift f (swap l j (j - 1)) a (j - 1) else l
  end.

Fixpoint insertionLoop (fuel : nat) (l : list A) (a b i : Z) : list A :=
  match fuel with
  | O => l
  | S f =>
      if i <? b
      then insertionLoop f (insertionShift (Z.to_nat (i - a)) l a i) a b (i + 1)
      else l
  end.

Definition insertionSort (l : list A) (a b : Z) : list A :=
  insertionLoop (Z.to_nat (b - a)) l a b (a + 1).

(** siftDown_func: the [for] loop, with [root] as loop variable. *)
Fixpoint siftDownLoop (fuel : nat) (l : list A) (hi first root : Z) : list A :=
  match fuel with
  | O => l
  | S f =>
      let child := 2 * root + 1 in
      if child >=? hi then l
      else
        let child :=
          if (child + 1 <? hi) && lessAt l (first + child) (first + child + 1)
          then child + 1 else child in
        if negb (lessAt l (first + root) (first + child)) then l
        else siftDownLoop f (swap l (first + root) (first + child)) hi first child
  end.

Definition siftDown (l : list A) (lo hi first : Z) : list A :=
  siftDownLoop (S (Z.to_nat hi)) l hi first lo.

(** heapSort_func *)
Fixpoint heapBuild (fuel : nat) (l : list A) (hi first i : Z) : list A :=
  match fuel with
  | O => l
  | S f => if i >=? 0 then heapBuild f (siftDown l i hi first) hi first (i - 1) else l
  end.

Fixpoint heapPop (fuel : nat) (l : list A) (first i : Z) : list A :=
  match fuel with
  | O => l
  | S f =>
      if i >=? 0
      then heapPop f (siftDown (swap l first (first + i)) 0 i first) first (i - 1)
      else l
  end.

Definition heapSort (l : list A) (a b : Z) : list A :=
  let first := a in
  let hi := b - a in
  let l := heapBuild (S (Z.to_nat (Z.quot (hi - 1) 2))) l hi first (Z.quot (hi - 1) 2) in
  heapPop (Z.to_nat hi) l first (hi - 1).

(** breakPatterns_func, with the [xorshift] generator and [nextPowerOfTwo]. *)
Definition xorshiftNext (r : Z) : Z :=
  let r := Z.lxor r (Z.shiftl r 13 mod 2 ^ 64) in
  let r := Z.lxor r (Z.shiftr r 7) in
  Z.lxor r (Z.shiftl r 17 mod 2 ^ 64).

(** [bits.Len(uint(x))] for [x >= 0]. *)
Definition bitsLen (x : Z) : Z := if x <=? 0 then 0 else Z.log2 x + 1.

Definition nextPowerOfTwo (length : Z) : Z := Z.shiftl 1 (bitsLen length).

Fixpoint breakLoop (fuel : nat) (l : list A) (a length modulus idx random i : Z) : list A :=
  match fuel with
  | O => l
  | S f =>
      let random := xorshiftNext random in
      let other := Z.land random (modulus - 1) in
      let other := if other >=? length then other - length else other in
      breakLoop f (swap l (idx - 1 + i) (a + other)) a length modulus idx random (i + 1)
  end.

Definition breakPatterns (l : list A) (a b : Z) : list A :=
  let length := b - a in
  if length >=? 8
  then breakLoop 3 l a length (nextPowerOfTwo length) (a + Z.quot length 4 * 2 - 1) length 0
  else l.

(** choosePivot_func, order2_func, median_func, medianAdjacent_func *)
Inductive sortedHint := unknownHint | increasingHint | decreasingHint.

Definition order2 (l : list A) (a b swaps : Z) : Z * Z * Z :=
  if lessAt l b a then (b, a, swaps + 1) else (a, b, swaps).

Definition median (l : list A) (a b c swaps : Z) : Z * Z :=
  let '(a, b, swaps) := order2 l a b swaps in
  let '(b, c, swaps) := order2 l b c swaps in
  let '(a, b, swaps) := order2 l a b swaps in
  (b, swaps).

Definition medianAdjacent (l : list A) (a swaps : Z) : Z * Z :=
  median l (a - 1) a (a + 1) swaps.

Definition choosePivot (l : list A) (a b : Z) : Z * sortedHint :=
  let len := b - a in
  let i := a + Z.quot len 4 * 1 in
  let j := a + Z.quot len 4 * 2 in
  let k := a + Z.quot len 4 * 3 in
  let '(j, swaps) :=
    if len >=? 8 then
      let '(i, j, k, swaps) :=
        if len >=? 50 then
          let '(i, swaps) := medianAdjacent l i 0 in
          let '(j, swaps) := medianAdjacent l j swaps in
          let '(k, swaps) := medianAdjacent l k swaps in
          (i, j, k, swaps)
        else (i, j, k, 0) in
      median l i j k swaps
    else (j, 0) in
  if swaps =? 0 then (j, increasingHint)
  else if swaps =? 12 then (j, decreasingHint)
  else (j, unknownHint).

(** reverseRange_func *)
Fixpoint reverseLoop (fuel : nat) (l : list A) (i j : Z) : list A :=
  match fuel with
  | O => l
  | S f => if i <? j then reverseLoop f (swap l i j) (i + 1) (j - 1) else l
  end.

Definition reverseRange (l : list A) (a b : Z) : list A :=
  reverseLoop (Z.to_nat (b - a)) l a (b - 1).

(** partialInsertionSort_func *)
Fixpoint scanSorted (fuel : nat) (l : list A) (i b : Z) : Z :=
  match fuel with
  | O => i
  | S f => if (i <? b) && negb (lessAt l i (i - 1)) then scanSorted f l (i + 1) b else i
  end.

(** [for j := i - 1; j >= 1; j--] (shift the smaller one to the left). *)
Fixpoint shiftLeft (fuel : nat) (l : list A) (j : Z) : list A :=
  match fuel with
  | O => l
  | S f =>
      if j >=? 1 then
        if negb (lessAt l j (j - 1)) then l else shiftLeft f (swap l j (j - 1)) (j - 1)
      else l
  end.

(** [for j := i + 1; j < b; j++] (shift the greater one to the right). *)
Fixpoint shiftRight (fuel : nat) (l : list A) (j b : Z) : list A :=
  match fuel with
  | O => l
  | S f =>
      if j <? b then
        if negb (lessAt l j (j - 1)) then l else shiftRight f (swap l j (j - 1)) (j + 1) b
      else l
  end.

Fixpoint partialSteps (steps : nat) (l : list A) (a b i : Z) : bool * list A :=
  match steps with
  | O => (false, l)
  | S s =>
      let i := scanSorted (Z.to_nat (b - i)) l i b in
      if i =? b then (true, l)
      else if b - a <? 50 then (false, l)
      else
        let l := swap l i (i - 1) in
        let l := if i - a >=? 2 then shiftLeft (Z.to_nat (i - 1)) l (i - 1) else l in
        let l := if b - i >=? 2 then shiftRight (Z.to_nat (b - i - 1)) l (i + 1) b else l in
        partialSteps s l a b i
  end.

(** maxSteps = 5 *)
Definition partialInsertionSort (l : list A) (a b : Z) : bool * list A :=
  partialSteps 5 l a b (a + 1).

(** partitionEqual_func *)
Fixpoint scanNotGreater (fuel : nat) (l : list A) (a i j : Z) : Z :=
  match fuel with
  | O => i
  | S f => if (i <=? j) && negb (lessAt l a i) then scanNotGreater f l a (i + 1) j else i
  end.

Fixpoint scanGreater (fuel : nat) (l : list A) (a i j : Z) : Z :=
  match fuel with
  | O => j
  | S f => if (i <=? j) && lessAt l a j then scanGreater f l a i (j - 1) else j
  end.

Fixpoint partitionEqualLoop (fuel : nat) (l : list A) (a i j : Z) : Z * list A :=
  match fuel with
  | O => (i, l)
  | S f =>
      let i := scanNotGreater (Z.to_nat (j - i + 1)) l a i j in
      let j := scanGreater (Z.to_nat (j - i + 1)) l a i j in
      if i >? j then (i, l)
      else partitionEqualLoop f (swap l i j) a (i + 1) (j - 1)
  end.

Definition partitionEqual (l : list A) (a b pivot : Z) : Z * list A :=
  let l := swap l a pivot in
  partitionEqualLoop (Z.to_nat (b - a)) l a (a + 1) (b - 1).

(** partition_func *)
Fixpoint scanLess (fuel : nat) (l : list A) (a i j : Z) : Z :=
  match fuel with
  | O => i
  | S f => if (i <=? j) && lessAt l i a then scanLess f l a (i + 1) j else i
  end.

Fixpoint scanNotLess (fuel : nat) (l : list A) (a i j : Z) : Z :=
  match fuel with
  | O => j
  | S f => if (i <=? j) && negb (lessAt l j a) then scanNotLess f l a i (j - 1) else j
  end.

Fixpoint partitionLoop (fuel : nat) (l : list A) (a i j : Z) : Z * list A :=
  match fuel with
  | O => (j, l)
  | S f =>
      let i := scanLess (Z.to_nat (j - i + 1)) l a i j in
      let j := scanNotLess (Z.to_nat (j - i + 1)) l a i j in
      if i >? j then (j, l)
      else partitionLoop f (swap l i j) a (i + 1) (j - 1)
  end.

Definition partition (l : list A) (a b pivot : Z) : Z * bool * list A :=
  let l := swap l a pivot in
  let i := a + 1 in
  let j := b - 1 in
  let i := scanLess (Z.to_nat (j - i + 1)) l a i j in
  let j := scanNotLess (Z.to_nat (j - i + 1)) l a i j in
  if i >? j then (j, true, swap l j a)
  else
    let l := swap l i j in
    let '(j, l) := partitionLoop (Z.to_nat (b - a)) l a (i + 1) (j - 1) in
    (j, false, swap l j a).

Definition isIncreasing (h : sortedHint) : bool :=
  match h with increasingHint => true | _ => false end.

(** pdqsort_func: one call of the Go function runs [pdqsort fuel l a b limit
    true true]; the loop's [continue] and the tail of each iteration are the
    recursive calls carrying the loop state. maxInsertion = 12. *)
Fixpoint pdqsort (fuel : nat) (l : list A) (a b limit : Z)
    (wasBalanced wasPartitioned : bool) : list A :=
  match fuel with
  | O => l
  | S f =>
      let length := b - a in
      if length <=? 12 then insertionSort l a b
      else if limit =? 0 then heapSort l a b
      else
        let '(l, limit) :=
          if negb wasBalanced then (breakPatterns l a b, limit - 1) else (l, limit) in
        let '(pivot, hint) := choosePivot l a b in
        let '(l, pivot, hint) :=
          match hint with
          | decreasingHint => (reverseRange l a b, (b - 1) - (pivot - a), increasingHint)
          | _ => (l, pivot, hint)
          end in
        let '(sorted, l) :=
          if wasBalanced && wasPartitioned && isIncreasing hint
          then partialInsertionSort l a b else (false, l) in
        if sorted then l
        else if (a >? 0) && negb (lessAt l (a - 1) pivot) then
          let '(mid, l) := partitionEqual l a b pivot in
          pdqsort f l mid b limit wasBalanced wasPartitioned
        else
          let '(mid, alreadyPartitioned, l) := partition l a b pivot in
          let wasPartitioned := alreadyPartitioned in
          let leftLen := mid - a in
          let rightLen := b - mid in
          let balanceThreshold := Z.quot length 8 in
          if leftLen <? rightLen then
            let wasBalanced := leftLen >=? balanceThreshold in
            let l := pdqsort f l a mid limit true true in
            pdqsort f l (mid + 1) b limit wasBalanced wasPartitioned
          else
            let wasBalanced := rightLen >=? balanceThreshold in
            let l := pdqsort f l (mid + 1) b limit true true in
            pdqsort f l a mid limit wasBalanced wasPartitioned
  end.

(** [sort.Slice]: [limit := bits.Len(uint(length))]. *)
Definition sortSlice (l : list A) : list A :=
  let length := Z.of_nat (List.length l) in
  pdqsort (S (List.length l)) l 0 length (bitsLen length) true true.

End GoSort.

Arguments get {A}.
Arguments lessAt {A}.
Arguments upd {A}.
Arguments swap {A}.
Arguments insertionShift {A}.
Arguments insertionLoop {A}.
Arguments insertionSort {A}.
Arguments siftDownLoop {A}.
Arguments siftDown {A}.
Arguments heapBuild {A}.
Arguments heapPop {A}.
Arguments heapSort {A}.
Arguments breakLoop {A}.
Arguments breakPatterns {A}.
Arguments order2 {A}.
Arguments median {A}.
Arguments medianAdjacent {A}.
Arguments choosePivot {A}.
Arguments reverseLoop {A}.
Arguments reverseRange {A}.
Arguments scanSorted {A}.
Arguments shiftLeft {A}.
Arguments shiftRight {A}.
Arguments partialSteps {A}.
Arguments partialInsertionSort {A}.
Arguments scanNotGreater {A}.
Arguments scanGreater {A}.
Arguments partitionEqualLoop {A}.
Arguments partitionEqual {A}.
Arguments scanLess {A}.
Arguments scanNotLess {A}.
Arguments partitionLoop {A}.
Arguments partition {A}.
Arguments pdqsort {A}.
Arguments sortSlice {A}.

(* ------------------------------------------------------------------ *)
(** ** GenerateTimeline (analyzer.go) *)

(** The events appended by the loop, in entry order. *)
Definition timelineEvents (entries : list Entry) : list TimelineEvent :=
  imap (fun i entry =>
          mkEvent (Z.of_nat i) (URL (ERequest entry)) (Method (ERequest entry))
            (Status (EResponse entry)) (StartedDateTime entry) (EntryTime entry)
            (Size (RContent (EResponse entry))) (MimeType (RContent (EResponse entry))))
       entries.

(** [sort.Slice(events, func(i, j) { events[i].StartTime.Before(events[j].StartTime) })]. *)
Definition GenerateTimeline (entries : list Entry) : list TimelineEvent :=
  sortSlice TE.StartTime (timelineEvents entries).

(** The ordering the spec describes: ascending start time, ties in index order. *)
Fixpoint startThenIndexOrdered (evs : list TimelineEvent) : bool :=
  match evs with
  | e1 :: ((e2 :: _) as rest) =>
      ((TE.StartTime e1 <? TE.StartTime e2)
       || ((TE.StartTime e1 =? TE.StartTime e2) && (TE.Index e1 <? TE.Index e2)))
      && startThenIndexOrdered rest
  | _ => true
  end.

(** Thirteen entries: twelve started at the same instant, then one earlier. *)
Definition tieEntries : list Entry :=
  map (fun k => sampleEntry "https://a.test/r" (if k =? 12 then 0 else 1000) 5 200 10 0 0 0)
      (map Z.of_nat (seq 0 13)).

(** Specification side of the phase averages: the sum of a phase's durations
    over the entries where it is positive. *)
Definition positiveSum (phase : Timings -> Z) (entries : list Entry) : Z :=
  fold_right Z.add 0 (filter (fun x => x >? 0) (map (fun e => phase (ETimings e)) entries)).


(** Sample timeline event: index [i], start [start] ns, duration [ms]. *)
Definition sampleEvent (i start : Z) (ms : Q) : TimelineEvent :=
  mkEvent i "https://a.test/app.js" "GET" 200 start ms 1000 "application/javascript".

Definition sampleRenderer : TimelineRenderer := mkRenderer 55 40 0 0 0.

(* ------------------------------------------------------------------ *)
(** ** Analyzer queries (analyzer.go) *)

(** [entries[:limit]] after [if limit > len(entries) { limit = len(entries) }];
    a negative [limit] makes the slice expression panic ([None]). *)
Definition headSlice {A} (entries : list A) (limit : Z) : option (list A) :=
  let limit :=
    if limit >? Z.of_nat (List.length entries) then Z.of_nat (List.length entries)
    else limit in
  if limit <? 0 then None else Some (firstn (Z.to_nat limit) entries).

(** GetLargestRequests: [sort.Slice] with
    [less(i, j) = entries[i].Response.Content.Size > entries[j].Response.Content.Size],
    which is [key i < key j] for the key [- Size]. *)
Definition GetLargestRequests (log : HARLog) (limit : Z) : option (list Entry) :=
  let entries := sortSlice (fun e => - Size (RContent (EResponse e))) (Entries log) in
  headSlice entries limit.

(** GetSlowestRequests compares the float64 field [Time]:
    [less(i, j) = entries[i].Time > entries[j].Time]. [slowRank entries e]
    counts the entries strictly slower than [e]; on the entries of the
    slice, [slowRank x < slowRank y] holds exactly when [Time x > Time y]
    ([slowRank_less] below), so sorting by this key performs the same
    comparisons as the Go closure. *)
Definition slowRank (entries : list Entry) (e : Entry) : Z :=
  Z.of_nat (List.length (filter (fun f => qltb (EntryTime e) (EntryTime f)) entries)).

Definition GetSlowestRequests (log : HARLog) (limit : Z) : option (list Entry) :=
  let entries := sortSlice (slowRank (Entries log)) (Entries log) in
  headSlice entries limit.

Definition GetErrorRequests (log : HARLog) : list Entry :=
  filter (fun entry => Status (EResponse entry) >=? 400) (Entries log).

(** The map key GetResourcesByType computes for an entry. *)
Definition resourceType (entry : Entry) : string :=
  let contentType := MimeType (RContent (EResponse entry)) in
  let contentType := if String.eqb contentType "" then "unknown"%string else contentType in
  if contains contentType "javascript" then "javascript"%string
  else if contains contentType "css" then "css"%string
  else if contains contentType "image" then "image"%string
  else if contains contentType "html" then "html"%string
  else if contains contentType "json" then "json"%string
  else if contains contentType "font" then "font"%string
  else contentType.

(** A Go [map[string][]Entry] as an association list with distinct keys;
    reading a missing key yields the nil slice. *)
Definition ResourceMap := list (string * list Entry).

Fixpoint mapGet (m : ResourceMap) (k : string) : list Entry :=
  match m with
  | [] => []
  | (k', v) :: m' => if String.eqb k' k then v else mapGet m' k
  end.

Fixpoint mapSet (m : ResourceMap) (k : string) (v : list Entry) : ResourceMap :=
  match m with
  | [] => [(k, v)]
  | (k', v') :: m' => if String.eqb k' k then (k, v) :: m' else (k', v') :: mapSet m' k v
  end.

(** [resources[contentType] = append(resources[contentType], entry)]. *)
Definition resourcesStep (resources : ResourceMap) (entry : Entry) : ResourceMap :=
  let contentType := resourceType entry in
  mapSet resources contentType (mapGet resources contentType ++ [entry]).

Definition GetResourcesByType (log : HARLog) : ResourceMap :=
  fold_left resourcesStep (Entries log) [].

(** The six simplified content types. *)
Definition resourceCategories : list string :=
  ["javascript"; "css"; "image"; "html"; "json"; "font"]%string.

(* ------------------------------------------------------------------ *)
(** ** The "... and %d more requests" line of RenderWaterfall *)

(** Its count, if the line is printed (on the non-empty timeline path). *)
Definition moreRequests (tr : TimelineRenderer) (timeline : list TimelineEvent) : option Z :=
  let maxEntries := rheight tr - 8 in
  if Z.of_nat (List.length timeline) >? maxEntries
  then Some (Z.of_nat (List.length timeline) - maxEntries) else None.

(* ------------------------------------------------------------------ *)
(** ** Entry table and filter of the TUI (tui: package-level helpers) *)

Module TUI.

(** [toLower(c byte)]: ['A'..'Z'] shifted by ['a' - 'A']. *)
Definition toLower (c : ascii) : ascii :=
  let n := nat_of_ascii c in
  if (65 <=? n)%nat && (n <=? 90)%nat then ascii_of_nat (n + 32) else c.

(** Loop of equalIgnoreCase: [for i := 0; i < len(a); i++]. *)
Fixpoint equalLoop (a b : string) : bool :=
  match a, b with
  | String x a', String y b' => Ascii.eqb (toLower x) (toLower y) && equalLoop a' b'
  | _, _ => true
  end.

Definition equalIgnoreCase (a b : string) : bool :=
  if negb (Nat.eqb (String.length a) (String.length b)) then false
  else equalLoop a b.

(** Loop of findSubstring from index [i], with [fuel] iterations left. *)
Fixpoint findLoop (fuel : nat) (s substr : string) (i : nat) : bool :=
  match fuel with
  | O => false
  | S f =>
      if equalIgnoreCase (substring i (String.length substr) s) substr then true
      else findLoop f s substr (S i)
  end.

(** [for i := 0; i <= len(s)-len(substr); i++]. *)
Definition findSubstring (s substr : string) : bool :=
  let last := Z.of_nat (String.length s) - Z.of_nat (String.length substr) in
  findLoop (Z.to_nat (last + 1)) s substr 0.

Definition contains (s substr : string) : bool :=
  (String.length substr <=? String.length s)%nat
  && (String.eqb s substr || (String.length substr =? 0)%nat || findSubstring s substr).

(** [fmt.Sprintf("%s", x)] is [x] for a string. *)
Definition matchesFilter (entry : Entry) (filter : string) : bool :=
  contains (URL (ERequest entry)) filter
  || contains (Method (ERequest entry)) filter
  || contains (MimeType (RContent (EResponse entry))) filter.

(** truncateValue and truncateURL (same body); [None] is the panic of
    [value[:maxLen-3]] when [maxLen - 3 < 0]. *)
Definition truncateValue (value : string) (maxLen : Z) : option string :=
  if Z.of_nat (String.length value) <=? maxLen then Some value
  else if maxLen - 3 <? 0 then None
  else Some (substring 0 (Z.to_nat (maxLen - 3)) value ++ "...")%string.

Definition truncateURL (url : string) (maxLen : Z) : option string :=
  if Z.of_nat (String.length url) <=? maxLen then Some url
  else if maxLen - 3 <? 0 then None
  else Some (substring 0 (Z.to_nat (maxLen - 3)) url ++ "...")%string.

(** The lowered string: [toLower] on every byte. *)
Definition lowerString (s : string) : string :=
  string_of_list_ascii (map toLower (list_ascii_of_string s)).

Section Table.

(** Go's [%.1f] verb. *)
Variable fmt1f : Q -> string.

(** The content-type cell of updateTableRows. *)
Definition typeCell (entry : Entry) : string :=
  let contentType := MimeType (RContent (EResponse entry)) in
  let contentType := if String.eqb contentType "" then "unknown"%string else contentType in
  if (15 <? String.length contentType)%nat
  then (substring 0 12 contentType ++ "...")%string else contentType.

(** The row updateTableRows builds for an entry; tui's formatSize has the
    body of the comparator's. *)
Definition tableRow (entry : Entry) : option (list string) :=
  match truncateURL (URL (ERequest entry)) 60 with
  | None => None
  | Some url =>
      Some [Method (ERequest entry); fmt_d (Status (EResponse entry)); url;
            fmt1f (EntryTime entry); formatSize fmt1f (Size (RContent (EResponse entry)));
            typeCell entry]
  end.

Fixpoint tableRows (entries : list Entry) : option (list (list string)) :=
  match entries with
  | [] => Some []
  | e :: es =>
      match tableRow e, tableRows es with
      | Some r, Some rs => Some (r :: rs)
      | _, _ => None
      end
  end.

(** The part of the TUI model these functions touch; the table widget is
    represented by its rows (its cursor, reset by [GotoTop], is not modelled). *)
Record Model := mkModel {
  harFiles : list HARLog;
  currentFile : Z;
  mentries : list Entry;
  rows : list (list string)
}.

(** updateTableRows: with no entries it returns before [m.table.SetRows]. *)
Definition updateTableRows (m : Model) : option Model :=
  match mentries m with
  | [] => Some m
  | _ :: _ =>
      match tableRows (mentries m) with
      | None => None
      | Some rs => Some (mkModel (harFiles m) (currentFile m) (mentries m) rs)
      end
  end.

(** [m.harFiles[m.currentFile]]; [None] is an index panic. *)
Definition currentLog (m : Model) : option HARLog :=
  if currentFile m <? 0 then None else nth_error (harFiles m) (Z.to_nat (currentFile m)).

Definition filterEntries (m : Model) (filterText : string) : option Model :=
  match currentLog m with
  | None => None
  | Some log =>
      let entries :=
        if String.eqb filterText "" then Entries log
        else filter (fun entry => matchesFilter entry filterText) (Entries log) in
      updateTableRows (mkModel (harFiles m) (currentFile m) entries (rows m))
  end.

End Table.

End TUI.

(* ------------------------------------------------------------------ *)
(** ** ValidateHAR (parser.go) *)

(** A parsed HAR file: [har.Log.Version] beside the log fields the analyzer reads. *)
Record HARFile := mkHARFile { LogVersion : string; HLog : HARLog }.

(** [None] is the nil error. *)
Definition ValidateHAR (har : HARFile) : option string :=
  if String.eqb (LogVersion har) "" then Some "missing HAR version"%string
  else match Entries (HLog har) with
       | [] => Some "no entries found in HAR file"%string
       | _ :: _ => None
       end.

(** A TUI model showing one file of one entry, with one stale table row. *)
Definition sampleModel : TUI.Model :=
  TUI.mkModel [mkLog [] [sampleEntry "https://a.test/app.js" 0 5 200 1 0 0 0]] 0
    [sampleEntry "https://a.test/app.js" 0 5 200 1 0 0 0] [["GET"]%string].

(* ================================================================== *)
(** * Proofs *)

(** ** Comparator *)

Lemma nth_error_imap_from {A B} (f : nat -> A -> B) (l : list A) :
  forall k i, nth_error (imap_from f k l) i = option_map (f (k + i)%nat) (nth_error l i).
Proof.
  induction l as [|x r IH]; intros k i; destruct i as [|i]; simpl; auto.
  - now rewrite Nat.add_0_r.
  - rewrite IH. now rewrite Nat.add_succ_r.
Qed.

Lemma nth_error_imap {A B} (f : nat -> A -> B) (l : list A) i :
  nth_error (imap f l) i = option_map (f i) (nth_error l i).
Proof. apply nth_error_imap_from. Qed.

Lemma compare_many fmt1f files ms :
  (2 <= List.length ms)%nat ->
  Compare fmt1f files ms =
  mkComparison files ms
    [compareFloat fmt1f ms "Total Load Time" "ms" extractPageLoadTime;
     compareFloat fmt1f ms "Time to First Byte" "ms" extractTTFB;
     compareFloat fmt1f ms "Average DNS Time" "ms" extractDNSTime;
     compareFloat fmt1f ms "Average Connect Time" "ms" extractConnectTime;
     compareFloat fmt1f ms "Average SSL Time" "ms" extractSSLTime;
     compareInt fmt1f ms "Total Requests" "" extractTotalRequests;
     compareInt fmt1f ms "Error Requests" "" extractErrorRequests;
     compareInt fmt1f ms "Third-party Requests" "" extractThirdPartyRequests;
     compareFloat fmt1f ms "Cache Hit Ratio" "%" extractCacheHitRatio;
     compareSize fmt1f ms "Total Transfer Size" extractTotalSize]%string
    (calculateSummary
      [compareFloat fmt1f ms "Total Load Time" "ms" extractPageLoadTime;
       compareFloat fmt1f ms "Time to First Byte" "ms" extractTTFB;
       compareFloat fmt1f ms "Average DNS Time" "ms" extractDNSTime;
       compareFloat fmt1f ms "Average Connect Time" "ms" extractConnectTime;
       compareFloat fmt1f ms "Average SSL Time" "ms" extractSSLTime;
       compareInt fmt1f ms "Total Requests" "" extractTotalRequests;
       compareInt fmt1f ms "Error Requests" "" extractErrorRequests;
       compareInt fmt1f ms "Third-party Requests" "" extractThirdPartyRequests;
       compareFloat fmt1f ms "Cache Hit Ratio" "%" extractCacheHitRatio;
       compareSize fmt1f ms "Total Transfer Size" extractTotalSize]%string).
Proof.
  intros H. unfold Compare.
  destruct (Nat.ltb_spec (List.length ms) 2); [lia | reflexivity].
Qed.

Lemma length_of_nth_error {A} (l : list A) i x :
  nth_error l i = Some x -> (i < List.length l)%nat.
Proof. intros H. apply nth_error_Some. congruence. Qed.

(** Column [i > 0] of a compareInt row is the loop body at (metrics[0], metrics[i]). *)
Lemma compareInt_column fmt1f ms name unit ex i m0 mi :
  nth_error ms 0 = Some m0 -> nth_error ms (S i) = Some mi ->
  nth_error (Changes (compareInt fmt1f ms name unit ex)) (S i) =
    Some (fst (intChange fmt1f name (ex m0) (ex mi))) /\
  nth_error (Improvements (compareInt fmt1f ms name unit ex)) (S i) =
    Some (snd (intChange fmt1f name (ex m0) (ex mi))).
Proof.
  destruct ms as [|m0' r]; [discriminate|]. intros H0 Hi.
  simpl in H0. injection H0 as <-.
  cbn [Changes Improvements compareInt compareFloat].
  rewrite !nth_error_map, !nth_error_imap, Hi. auto.
Qed.

Lemma compareFloat_column fmt1f ms name unit ex i m0 mi :
  nth_error ms 0 = Some m0 -> nth_error ms (S i) = Some mi ->
  nth_error (Changes (compareFloat fmt1f ms name unit ex)) (S i) =
    Some (fst (floatChange fmt1f name (ex m0) (ex mi))) /\
  nth_error (Improvements (compareFloat fmt1f ms name unit ex)) (S i) =
    Some (snd (floatChange fmt1f name (ex m0) (ex mi))).
Proof.
  destruct ms as [|m0' r]; [discriminate|]. intros H0 Hi.
  simpl in H0. injection H0 as <-.
  cbn [Changes Improvements compareInt compareFloat].
  rewrite !nth_error_map, !nth_error_imap, Hi. auto.
Qed.

Lemma intChange_total_requests fmt1f b v :
  v <> b ->
  snd (intChange fmt1f "Total Requests" b v) = false /\
  verdict (fst (intChange fmt1f "Total Requests" b v)) false = Worse.
Proof.
  intros Hne. unfold intChange.
  destruct (Z.eqb_spec (v - b) 0) as [E|_]; [lia|].
  destruct (Z.gtb_spec (v - b) 0) as [Hp|Hn]; [split; reflexivity|].
  unfold fmt_d. destruct (Z.ltb_spec (v - b) 0) as [_|Hge]; [|lia].
  split; reflexivity.
Qed.

Lemma floatChange_zero_base fmt1f name b v :
  (b == 0)%Q -> floatChange fmt1f name b v = ("No change"%string, false).
Proof.
  intros Hb. unfold floatChange.
  apply Qeq_bool_iff in Hb. rewrite Hb. reflexivity.
Qed.

(** C6: with fewer than two Metrics, Compare returns no differences and the
    zero summary (so [TotalMetrics = 0]); Compare has no error result. *)
Theorem compare_fewer_than_two fmt1f files ms :
  (List.length ms < 2)%nat ->
  Differences (Compare fmt1f files ms) = [] /\
  Summary (Compare fmt1f files ms) = zeroSummary /\
  TotalMetrics (Summary (Compare fmt1f files ms)) = 0.
Proof.
  intros H. unfold Compare.
  destruct (Nat.ltb_spec (List.length ms) 2); [|lia].
  repeat split.
Qed.

Lemma compare_fewer_than_two_witness :
  (List.length [zeroMetrics] < 2)%nat /\
  Differences (Compare (fun _ => EmptyString) ["only.har"%string] [zeroMetrics]) = [] /\
  Summary (Compare (fun _ => EmptyString) ["only.har"%string] [zeroMetrics]) = zeroSummary /\
  TotalMetrics (Summary (Compare (fun _ => EmptyString) ["only.har"%string] [zeroMetrics])) = 0.
Proof.
  split; [simpl; lia|]. apply compare_fewer_than_two. simpl; lia.
Defined.

(** C7: baseline error count 0 and a later column with error count 2: the
    "Error Requests" cell is "+2 (+<0.0>%)" (percentage 0 by the zero-baseline
    convention), its improvement flag is false, and calculateSummary counts it
    as worse. *)
Theorem compare_error_zero_to_two fmt1f files ms i m0 mi :
  (1 <= i)%nat -> nth_error ms 0 = Some m0 -> nth_error ms i = Some mi ->
  ErrorRequests m0 = 0 -> ErrorRequests mi = 2 ->
  exists d,
    find (fun d => String.eqb (Name d) "Error Requests")
      (Differences (Compare fmt1f files ms)) = Some d /\
    nth_error (Changes d) i = Some ("+2 (+" ++ fmt1f 0%Q ++ "%)")%string /\
    nth_error (Improvements d) i = Some false /\
    verdict ("+2 (+" ++ fmt1f 0%Q ++ "%)")%string false = Worse.
Proof.
  intros Hi H0 Hmi He0 Hei.
  destruct i as [|i]; [lia|].
  assert (Hlen : (2 <= List.length ms)%nat)
    by (apply length_of_nth_error in Hmi; lia).
  rewrite compare_many by exact Hlen.
  destruct (compareInt_column fmt1f ms "Error Requests" "" extractErrorRequests i m0 mi H0 Hmi)
    as [Hc Himp].
  exists (compareInt fmt1f ms "Error Requests" "" extractErrorRequests).
  destruct ms as [|m0' r]; [discriminate|].
  split; [reflexivity|].
  rewrite Hc, Himp. unfold extractErrorRequests. rewrite He0, Hei.
  repeat split.
Qed.

Lemma compare_error_zero_to_two_witness :
  let m2 := {| TotalRequests := 2; TotalTime := 0; TotalSize := 0; TTFB := 0;
               PageLoadTime := 0; DNSTime := 0; ConnectTime := 0; SSLTime := 0;
               FirstContentfulPaint := 0; LargestContentfulPaint := 0;
               CacheHitRatio := 0; ThirdPartyRequests := 0; ErrorRequests := 2 |} in
  let f := fun _ : Q => "0.0"%string in
  exists d,
    find (fun d => String.eqb (Name d) "Error Requests")
      (Differences (Compare f ["a.har"; "b.har"]%string [zeroMetrics; m2])) = Some d /\
    nth_error (Changes d) 1 = Some ("+2 (+" ++ f 0%Q ++ "%)")%string /\
    nth_error (Improvements d) 1 = Some false /\
    verdict ("+2 (+" ++ f 0%Q ++ "%)")%string false = Worse.
Proof.
  intros m2 f.
  apply (compare_error_zero_to_two f ["a.har"; "b.har"]%string [zeroMetrics; m2] 1 zeroMetrics m2).
  - lia.
  - reflexivity.
  - reflexivity.
  - reflexivity.
  - reflexivity.
Defined.

(** C9: for each of the six floating-point rows, when the baseline value is
    exactly 0 every later column is "No change" with improvement false, hence
    tallied as unchanged, whatever that column's value is. *)
Theorem compare_float_zero_baseline fmt1f files ms name unit ex i m0 mi :
  In (name, unit, ex) floatRows ->
  (1 <= i)%nat -> nth_error ms 0 = Some m0 -> nth_error ms i = Some mi ->
  (ex m0 == 0)%Q ->
  In (compareFloat fmt1f ms name unit ex) (Differences (Compare fmt1f files ms)) /\
  nth_error (Changes (compareFloat fmt1f ms name unit ex)) i = Some "No change"%string /\
  nth_error (Improvements (compareFloat fmt1f ms name unit ex)) i = Some false /\
  verdict "No change" false = Unchanged.
Proof.
  intros Hrow Hi H0 Hmi Hz.
  destruct i as [|i]; [lia|].
  assert (Hlen : (2 <= List.length ms)%nat)
    by (apply length_of_nth_error in Hmi; lia).
  destruct (compareFloat_column fmt1f ms name unit ex i m0 mi H0 Hmi) as [Hc Himp].
  rewrite floatChange_zero_base in Hc, Himp by exact Hz.
  split; [|split; [exact Hc|split; [exact Himp|reflexivity]]].
  rewrite compare_many by exact Hlen. cbn [Differences].
  simpl in Hrow.
  repeat (destruct Hrow as [Hrow|Hrow]; [injection Hrow as <- <- <-; simpl; tauto|]).
  contradiction.
Qed.

Lemma compare_float_zero_baseline_witness :
  let mb := {| TotalRequests := 3; TotalTime := 40; TotalSize := 100; TTFB := 250;
               PageLoadTime := 900; DNSTime := 5; ConnectTime := 7; SSLTime := 3;
               FirstContentfulPaint := 0; LargestContentfulPaint := 0;
               CacheHitRatio := 50; ThirdPartyRequests := 1; ErrorRequests := 0 |} in
  let f := fun _ : Q => "0.0"%string in
  In (compareFloat f [zeroMetrics; mb] "Time to First Byte" "ms" extractTTFB)
     (Differences (Compare f ["a.har"; "b.har"]%string [zeroMetrics; mb])) /\
  nth_error (Changes (compareFloat f [zeroMetrics; mb] "Time to First Byte" "ms" extractTTFB)) 1
    = Some "No change"%string /\
  nth_error (Improvements (compareFloat f [zeroMetrics; mb] "Time to First Byte" "ms" extractTTFB)) 1
    = Some false /\
  verdict "No change" false = Unchanged.
Proof.
  intros mb f.
  apply (compare_float_zero_baseline f ["a.har"; "b.har"]%string [zeroMetrics; mb]
           "Time to First Byte" "ms" extractTTFB 1 zeroMetrics mb).
  - simpl; tauto.
  - lia.
  - reflexivity.
  - reflexivity.
  - reflexivity.
Defined.

(** C10: whenever a later column's total request count differs from the
    baseline's, its "Total Requests" cell carries improvement false and is
    not "No change", so calculateSummary counts it as worse, never better,
    whichever way the count moved. *)
Theorem compare_total_requests_worse fmt1f files ms i m0 mi :
  (1 <= i)%nat -> nth_error ms 0 = Some m0 -> nth_error ms i = Some mi ->
  TotalRequests mi <> TotalRequests m0 ->
  exists d ch,
    find (fun d => String.eqb (Name d) "Total Requests")
      (Differences (Compare fmt1f files ms)) = Some d /\
    nth_error (Changes d) i = Some ch /\
    nth_error (Improvements d) i = Some false /\
    verdict ch false = Worse.
Proof.
  intros Hi H0 Hmi Hne.
  destruct i as [|i]; [lia|].
  assert (Hlen : (2 <= List.length ms)%nat)
    by (apply length_of_nth_error in Hmi; lia).
  rewrite compare_many by exact Hlen.
  destruct (compareInt_column fmt1f ms "Total Requests" "" extractTotalRequests i m0 mi H0 Hmi)
    as [Hc Himp].
  destruct (intChange_total_requests fmt1f (TotalRequests m0) (TotalRequests mi) Hne)
    as [Hs Hv].
  exists (compareInt fmt1f ms "Total Requests" "" extractTotalRequests).
  exists (fst (intChange fmt1f "Total Requests" (TotalRequests m0) (TotalRequests mi))).
  destruct ms as [|m0' r]; [discriminate|].
  split; [reflexivity|].
  rewrite Hc, Himp. unfold extractTotalRequests. rewrite Hs. auto.
Qed.

Lemma compare_total_requests_worse_witness :
  let m5 := {| TotalRequests := 5; TotalTime := 0; TotalSize := 0; TTFB := 0;
               PageLoadTime := 0; DNSTime := 0; ConnectTime := 0; SSLTime := 0;
               FirstContentfulPaint := 0; LargestContentfulPaint := 0;
               CacheHitRatio := 0; ThirdPartyRequests := 0; ErrorRequests := 0 |} in
  let f := fun _ : Q => "0.0"%string in
  exists d ch,
    find (fun d => String.eqb (Name d) "Total Requests")
      (Differences (Compare f ["a.har"; "b.har"]%string [m5; zeroMetrics])) = Some d /\
    nth_error (Changes d) 1 = Some ch /\
    nth_error (Improvements d) 1 = Some false /\
    verdict ch false = Worse.
Proof.
  intros m5 f.
  apply (compare_total_requests_worse f ["a.har"; "b.har"]%string [m5; zeroMetrics] 1 m5 zeroMetrics).
  - lia.
  - reflexivity.
  - reflexivity.
  - simpl; lia.
Defined.

(** ** CalculateMetrics *)

(** C1 (failing input): the first entry's wait is stored even when it is not
    positive, and a stored 0 is never replaced by a positive wait, so waits
    [0; 50] give TTFB 0 instead of 50, and a single wait 0 gives 0 instead of
    the negative sentinel. *)
Theorem ttfb_first_nonpositive_wait :
  TTFB (CalculateMetrics (mkLog [] [sampleEntry "https://a.test/" 0 10 200 0 0 0 0;
                                    sampleEntry "https://a.test/x" 5 60 200 50 0 0 0])) = 0%Q /\
  positiveSum Wait [sampleEntry "https://a.test/" 0 10 200 0 0 0 0;
                    sampleEntry "https://a.test/x" 5 60 200 50 0 0 0] = 50 /\
  TTFB (CalculateMetrics (mkLog [] [sampleEntry "https://a.test/" 0 10 200 0 0 0 0])) = 0%Q.
Proof. vm_compute. repeat split. Qed.

Section PhaseSum.

Variable get : MState -> Q.
Variable phase : Timings -> Z.
Hypothesis get_step : forall st e,
  get (metricsStep st e) =
  (if phase (ETimings e) >? 0 then (get st + inject_Z (phase (ETimings e)))%Q else get st).

Lemma fold_phase_sum es : forall st,
  (get (fold_left metricsStep es st) == get st + inject_Z (positiveSum phase es))%Q.
Proof.
  induction es as [|e es IH]; intros st; simpl.
  - unfold positiveSum; simpl. ring.
  - rewrite IH, get_step. unfold positiveSum; simpl.
    destruct (phase (ETimings e) >? 0); simpl.
    + rewrite inject_Z_plus. ring.
    + reflexivity.
Qed.

End PhaseSum.

(** C5: for a non-empty collection the DNS, connect and SSL averages are the
    sum of the positive durations of that phase divided by the number of
    entries (all entries, not only those where the phase was positive). *)
Theorem metrics_phase_averages log :
  Entries log <> [] ->
  let n := inject_Z (Z.of_nat (List.length (Entries log))) in
  (DNSTime (CalculateMetrics log) == inject_Z (positiveSum DNS (Entries log)) / n)%Q /\
  (ConnectTime (CalculateMetrics log) == inject_Z (positiveSum Connect (Entries log)) / n)%Q /\
  (SSLTime (CalculateMetrics log) == inject_Z (positiveSum SSL (Entries log)) / n)%Q.
Proof.
  intros Hne n. unfold CalculateMetrics, n.
  destruct (Entries log) as [|e es] eqn:E; [contradiction|].
  cbn [DNSTime ConnectTime SSLTime].
  rewrite (fold_phase_sum dnsTime DNS) by reflexivity.
  rewrite (fold_phase_sum connectTime Connect) by reflexivity.
  rewrite (fold_phase_sum sslTime SSL) by reflexivity.
  simpl dnsTime; simpl connectTime; simpl sslTime.
  repeat split; apply Qdiv_comp; try reflexivity; ring.
Qed.

Lemma metrics_phase_averages_witness :
  let log := mkLog [] [sampleEntry "https://a.test/" 0 10 200 30 12 0 0;
                       sampleEntry "https://a.test/x" 5 60 200 50 0 20 0] in
  let n := inject_Z (Z.of_nat (List.length (Entries log))) in
  Entries log <> [] /\
  (DNSTime (CalculateMetrics log) == inject_Z (positiveSum DNS (Entries log)) / n)%Q /\
  (ConnectTime (CalculateMetrics log) == inject_Z (positiveSum Connect (Entries log)) / n)%Q /\
  (SSLTime (CalculateMetrics log) == inject_Z (positiveSum SSL (Entries log)) / n)%Q.
Proof.
  intros log n. split; [discriminate|].
  apply (metrics_phase_averages log). discriminate.
Defined.

(** ** Waterfall layout *)

Lemma Qdiv_pos (a b : Q) : (0 < a)%Q -> (0 < b)%Q -> (0 < a / b)%Q.
Proof.
  intros Ha Hb. unfold Qdiv. apply Qmult_lt_0_compat; [exact Ha|].
  apply Qinv_lt_0_compat. exact Hb.
Qed.

Lemma totalDurationOf_pos s e : (0 < totalDurationOf s e)%Q.
Proof.
  unfold totalDurationOf.
  destruct (Qle_bool (rawTotalDuration s e) 0) eqn:H.
  - reflexivity.
  - apply Qnot_le_lt. intros Hle. apply Qle_bool_iff in Hle. congruence.
Qed.

Lemma chartWidthOf_ge20 w : 20 <= chartWidthOf w.
Proof. unfold chartWidthOf. destruct (Z.ltb_spec (wrap64 (w - 35)) 20); lia. Qed.

(** C2 (counterexample): a single instantaneous event has a raw window of
    0 ms; RenderWaterfall replaces it by 1000 ms, not by a 1 ms floor, so
    with chart width 20 the scale is 50 ms per pixel instead of 1/20. A
    window of 0.5 ms is kept as is, below 1 ms. *)
Lemma waterfall_window_not_1ms_floor :
  (rawTotalDuration 0 0 == 0)%Q /\
  match RenderWaterfall sampleRenderer [sampleEvent 0 0 0] with
  | Some (tr', cw, _) =>
      cw = 20 /\ (pixelScale tr' == 50)%Q /\
      ~ (pixelScale tr' == Qmax (rawTotalDuration (rstartTime tr') (rendTime tr')) 1
                           / inject_Z cw)%Q
  | None => False
  end /\
  match RenderWaterfall sampleRenderer [sampleEvent 0 0 0; sampleEvent 1 500000 0] with
  | Some (tr', cw, _) => (pixelScale tr' * inject_Z cw == 1 # 2)%Q
  | None => False
  end.
Proof.
  split; [vm_compute; reflexivity|].
  split; vm_compute; [|reflexivity].
  split; [reflexivity|split; [reflexivity|]].
  intros H. discriminate H.
Qed.

(** C2 (amended): RenderWaterfall replaces a window length that is <= 0 by
    1000 ms and keeps any positive window as it is; the chart width is at
    least 20, so the pixel scale (window / chart width) is positive and no
    division by zero occurs. *)
Theorem waterfall_window_guard tr timeline :
  match RenderWaterfall tr timeline with
  | None => timeline = []
  | Some (tr', cw, _) =>
      let raw := rawTotalDuration (rstartTime tr') (rendTime tr') in
      pixelScale tr' = ((if Qle_bool raw 0 then 1000 else raw) / inject_Z cw)%Q /\
      20 <= cw /\ (0 < pixelScale tr')%Q
  end.
Proof.
  destruct timeline as [|ev0 rest]; [reflexivity|].
  unfold RenderWaterfall.
  destruct (waterfallBounds ev0 (ev0 :: rest)) as [st en].
  cbn [pixelScale rstartTime rendTime].
  split; [reflexivity|]. split; [apply chartWidthOf_ge20|].
  apply Qdiv_pos; [apply totalDurationOf_pos|].
  pose proof (chartWidthOf_ge20 (rwidth tr)).
  unfold Qlt; simpl; lia.
Qed.

Lemma wrap64_range z : minInt64 <= wrap64 z <= maxInt64.
Proof.
  unfold wrap64, minInt64, maxInt64.
  pose proof (Z.mod_pos_bound (z + 2 ^ 63) (2 ^ 64) ltac:(lia)). lia.
Qed.















(** ** sort.Slice *)

Section SortProofs.

Variable A : Type.
Variable key : A -> Z.
Implicit Types l : list A.

Definition len (l : list A) : Z := Z.of_nat (List.length l).

(** Key at a position (0 outside the slice). *)
Definition kat (l : list A) (k : Z) : Z :=
  match get l k with Some x => key x | None => 0 end.

Lemma upd_length l n x : List.length (upd l n x) = List.length l.
Proof.
  revert n; induction l as [|y r IH]; intros [|n]; simpl; auto.
Qed.

Lemma nth_error_upd_same l n x :
  (n < List.length l)%nat -> nth_error (upd l n x) n = Some x.
Proof.
  revert n; induction l as [|y r IH]; intros [|n] H; simpl in *; try lia; auto.
  all: apply IH; lia.
Qed.

Lemma nth_error_upd_other l n m x :
  n <> m -> nth_error (upd l n x) m = nth_error l m.
Proof.
  revert n m; induction l as [|y r IH]; intros [|n] [|m] H; simpl; auto; try lia.
  all: apply IH; lia.
Qed.

Lemma get_some l i : 0 <= i < len l -> exists x, get l i = Some x.
Proof.
  intros H. unfold get, len in *.
  destruct (Z.ltb_spec i 0); [lia|].
  destruct (nth_error l (Z.to_nat i)) eqn:E; [eauto|].
  apply nth_error_None in E. lia.
Qed.

Lemma get_none l i : ~ (0 <= i < len l) -> get l i = None.
Proof.
  intros H. unfold get, len in *.
  destruct (Z.ltb_spec i 0); [reflexivity|].
  apply nth_error_None. lia.
Qed.

Lemma swap_length l i j : List.length (swap l i j) = List.length l.
Proof.
  unfold swap. destruct (get l i), (get l j); auto.
  now rewrite !upd_length.
Qed.

Lemma len_swap l i j : len (swap l i j) = len l.
Proof. unfold len. now rewrite swap_length. Qed.

Lemma get_upd l i x k :
  0 <= i < len l -> get (upd l (Z.to_nat i) x) k = if k =? i then Some x else get l k.
Proof.
  intros Hi. unfold get, len in *.
  destruct (Z.eqb_spec k i) as [->|Hne].
  - destruct (Z.ltb_spec i 0); [lia|]. apply nth_error_upd_same. lia.
  - destruct (Z.ltb_spec k 0); [reflexivity|].
    apply nth_error_upd_other. lia.
Qed.

Lemma get_swap l i j k :
  0 <= i < len l -> 0 <= j < len l ->
  get (swap l i j) k =
  if k =? j then get l i else if k =? i then get l j else get l k.
Proof.
  intros Hi Hj.
  destruct (get_some l i Hi) as [x Hx]. destruct (get_some l j Hj) as [y Hy].
  unfold swap. rewrite Hx, Hy.
  rewrite get_upd by (unfold len in *; rewrite upd_length; lia).
  rewrite get_upd by exact Hi.
  destruct (Z.eqb_spec k j); [congruence|].
  destruct (Z.eqb_spec k i); congruence.
Qed.

(** Any swap leaves a position's value among the old values at [k], [i], [j]. *)
Lemma get_swap_cases l i j k :
  get (swap l i j) k = get l k \/
  ((k = i \/ k = j) /\ (get (swap l i j) k = get l i \/ get (swap l i j) k = get l j)).
Proof.
  assert (Hi : 0 <= i < len l \/ get l i = None)
    by (destruct (Z.le_gt_cases 0 i), (Z.lt_ge_cases i (len l)); auto; right; apply get_none; lia).
  assert (Hj : 0 <= j < len l \/ get l j = None)
    by (destruct (Z.le_gt_cases 0 j), (Z.lt_ge_cases j (len l)); auto; right; apply get_none; lia).
  destruct Hi as [Hi|Hi]; [|left; unfold swap; now rewrite Hi].
  destruct Hj as [Hj|Hj]; [|left; unfold swap; rewrite Hj; now destruct (get l i)].
  rewrite get_swap by lia.
  destruct (Z.eqb_spec k j); [right; split; auto|].
  destruct (Z.eqb_spec k i); [right; split; auto|auto].
Qed.

Lemma nth_error_upd_perm l n x y :
  nth_error l n = Some x -> Permutation (x :: upd l n y) (y :: l).
Proof.
  intros H. destruct (nth_error_split l n H) as (l1 & l2 & -> & Hlen).
  assert (E : upd (l1 ++ x :: l2) n y = l1 ++ y :: l2).
  { subst n. clear H. induction l1 as [|z r IH]; simpl; auto. now rewrite IH. }
  rewrite E.
  transitivity (x :: y :: l1 ++ l2).
  - apply perm_skip. symmetry. apply Permutation_middle.
  - transitivity (y :: x :: l1 ++ l2); [apply perm_swap|].
    apply perm_skip. apply Permutation_middle.
Qed.

Lemma swap_perm l i j : Permutation l (swap l i j).
Proof.
  unfold swap.
  destruct (get l i) as [x|] eqn:Hx; [|reflexivity].
  destruct (get l j) as [y|] eqn:Hy; [|reflexivity].
  unfold get in Hx, Hy.
  destruct (Z.ltb_spec i 0); [discriminate|]. destruct (Z.ltb_spec j 0); [discriminate|].
  set (m := upd l (Z.to_nat i) y).
  assert (P1 : Permutation (x :: m) (y :: l)) by (apply nth_error_upd_perm; exact Hx).
  assert (Hm : nth_error m (Z.to_nat j) = Some y).
  { unfold m. destruct (Nat.eq_dec (Z.to_nat i) (Z.to_nat j)) as [E|E].
    - rewrite <- E. apply nth_error_upd_same.
      apply nth_error_Some. congruence.
    - rewrite nth_error_upd_other by exact E. exact Hy. }
  assert (P2 : Permutation (y :: upd m (Z.to_nat j) x) (x :: m))
    by (apply nth_error_upd_perm; exact Hm).
  apply Permutation_cons_inv with (a := y).
  symmetry. transitivity (x :: m); assumption.
Qed.

Lemma kat_swap l i j k :
  0 <= i < len l -> 0 <= j < len l ->
  kat (swap l i j) k = if k =? j then kat l i else if k =? i then kat l j else kat l k.
Proof.
  intros Hi Hj. unfold kat. rewrite get_swap by assumption.
  destruct (k =? j), (k =? i); reflexivity.
Qed.

Lemma lessAt_kat l i j :
  0 <= i < len l -> 0 <= j < len l -> lessAt key l i j = (kat l i <? kat l j).
Proof.
  intros Hi Hj. destruct (get_some l i Hi) as [x Hx]. destruct (get_some l j Hj) as [y Hy].
  unfold lessAt, kat. now rewrite Hx, Hy.
Qed.

(** [l'] is obtained from [l] by swaps of positions in [[a, b)]. *)
Inductive reach (a b : Z) : list A -> list A -> Prop :=
| reach_refl l : reach a b l l
| reach_step l i j l' :
    a <= i < b -> a <= j < b -> reach a b (swap l i j) l' -> reach a b l l'.

Lemma reach_trans a b l1 l2 l3 : reach a b l1 l2 -> reach a b l2 l3 -> reach a b l1 l3.
Proof.
  induction 1 as [|l i j l' Hi Hj _ IH]; intros H'; auto.
  apply (reach_step a b l i j l3 Hi Hj). now apply IH.
Qed.

Lemma reach_swap a b l i j : a <= i < b -> a <= j < b -> reach a b l (swap l i j).
Proof. intros. apply (reach_step a b l i j); auto. apply reach_refl. Qed.

Lemma reach_weaken a b a' b' l l' :
  a' <= a -> b <= b' -> reach a b l l' -> reach a' b' l l'.
Proof.
  intros Ha Hb. induction 1 as [|l i j l' Hi Hj _ IH]; [apply reach_refl|].
  apply (reach_step a' b' l i j); auto; lia.
Qed.

Lemma reach_len a b l l' : reach a b l l' -> len l' = len l.
Proof. induction 1; auto. rewrite IHreach. apply len_swap. Qed.

Lemma reach_perm a b l l' : reach a b l l' -> Permutation l l'.
Proof.
  induction 1; [reflexivity|]. transitivity (swap l i j); [apply swap_perm|assumption].
Qed.

Lemma reach_outside a b l l' k : reach a b l l' -> ~ (a <= k < b) -> kat l' k = kat l k.
Proof.
  induction 1 as [|l i j l' Hi Hj _ IH]; intros Hk; auto.
  rewrite IH by exact Hk. unfold kat.
  destruct (get_swap_cases l i j k) as [E|[[->| ->] _]]; [now rewrite E|lia|lia].
Qed.

Lemma reach_forall a b l l' (P : Z -> Prop) :
  reach a b l l' ->
  (forall k, a <= k < b -> P (kat l k)) -> forall k, a <= k < b -> P (kat l' k).
Proof.
  induction 1 as [|l i j l' Hi Hj _ IH]; intros H; auto.
  apply IH. intros k Hk. unfold kat.
  destruct (get_swap_cases l i j k) as [E|[_ [E|E]]]; rewrite E;
    [apply H; lia|apply (H i); lia|apply (H j); lia].
Qed.

(** A range is sorted when its keys are pairwise in order. *)
Definition sorted_range l a b : Prop :=
  forall i j, a <= i -> i <= j -> j < b -> kat l i <= kat l j.

Ltac zcase :=
  repeat match goal with |- context [?x =? ?y] => destruct (Z.eqb_spec x y) end.

Lemma sorted_range_small l a b : b <= a + 1 -> sorted_range l a b.
Proof. intros H i j Hi Hij Hj. assert (i = j) by lia. subst. lia. Qed.

Lemma sorted_range_sub l a b a' b' :
  a <= a' -> b' <= b -> sorted_range l a b -> sorted_range l a' b'.
Proof. intros Ha Hb H i j ? ? ?. apply H; lia. Qed.

(** Inner loop of insertionSort: the element at [j] moves down into the
    sorted prefix [[a, j)]; [(j, i]] is sorted and above the prefix. *)
Lemma insertionShift_spec n l a i j :
  0 <= a -> a <= j <= i -> i < len l -> Z.of_nat n >= j - a ->
  sorted_range l a j -> sorted_range l (j + 1) (i + 1) ->
  (forall x y, a <= x < j -> j < y <= i -> kat l x <= kat l y) ->
  (forall y, j < y <= i -> kat l j <= kat l y) ->
  reach a (i + 1) l (insertionShift key n l a j) /\
  sorted_range (insertionShift key n l a j) a (i + 1).
Proof.
  revert l j. induction n as [|f IH]; intros l j Ha Hj Hi Hn Hs1 Hs2 Hx Hv.
  - assert (j = a) by lia. subst j. split; [apply reach_refl|].
    intros x y ? ? ?.
    destruct (Z.eq_dec x a); [subst; destruct (Z.eq_dec y a); [subst; lia|apply Hv; lia]|].
    apply Hs2; lia.
  - assert (Hstop : j = a \/ kat l (j - 1) <= kat l j -> sorted_range l a (i + 1)).
    { intros Hc x y ? ? ?.
      destruct (Z_lt_le_dec y j); [apply Hs1; lia|].
      destruct (Z_lt_le_dec j x); [apply Hs2; lia|].
      destruct (Z.eq_dec x j); [subst x; destruct (Z.eq_dec y j); [subst; lia|apply Hv; lia]|].
      destruct (Z.eq_dec y j); [|apply Hx; lia].
      subst y. destruct Hc as [Hc|Hc]; [lia|].
      transitivity (kat l (j - 1)); [apply Hs1; lia|exact Hc]. }
    simpl. destruct (Z.gtb_spec j a); simpl.
    2: { split; [apply reach_refl|apply Hstop; lia]. }
    rewrite lessAt_kat by lia.
    destruct (Z.ltb_spec (kat l j) (kat l (j - 1))).
    2: { split; [apply reach_refl|apply Hstop; lia]. }
    set (l' := swap l j (j - 1)).
    assert (Hlen : len l' = len l) by apply len_swap.
    assert (Hk : forall k, kat l' k =
              if k =? j - 1 then kat l j else if k =? j then kat l (j - 1) else kat l k)
      by (intros k; unfold l'; apply kat_swap; lia).
    destruct (IH l' (j - 1)) as [IHr IHs]; try lia.
    + intros x y ? ? ?. rewrite !Hk. zcase; try lia. apply Hs1; lia.
    + intros x y ? ? ?. rewrite !Hk. zcase; try lia.
      * apply Hx; lia.
      * apply Hs2; lia.
    + intros x y ? ?. rewrite !Hk. zcase; try lia.
      * apply Hs1; lia.
      * apply Hx; lia.
    + intros y ?. rewrite !Hk. zcase; try lia. apply Hv; lia.
    + split; [|exact IHs].
      apply (reach_step a (i + 1) l j (j - 1)); [lia|lia|exact IHr].
Qed.

Lemma insertionLoop_spec n l a b i :
  0 <= a -> a + 1 <= i <= b -> b <= len l -> Z.of_nat n >= b - i + 1 ->
  sorted_range l a i ->
  reach a b l (insertionLoop key n l a b i) /\ sorted_range (insertionLoop key n l a b i) a b.
Proof.
  revert l i. induction n as [|f IH]; intros l i Ha Hi Hb Hn Hs; [lia|].
  simpl. destruct (Z.ltb_spec i b).
  - destruct (insertionShift_spec (Z.to_nat (i - a)) l a i i) as [R S];
      try lia; try exact Hs; try (apply sorted_range_small; lia); try (intros; lia).
    destruct (IH (insertionShift key (Z.to_nat (i - a)) l a i) (i + 1)) as [R' S']; try lia; try exact S.
    + rewrite (reach_len _ _ _ _ R). lia.
    + split; [|exact S'].
      eapply reach_trans; [|exact R']. eapply reach_weaken; [| |exact R]; lia.
  - assert (i = b) by lia. subst. split; [apply reach_refl|exact Hs].
Qed.

Lemma insertionSort_spec l a b :
  0 <= a <= b -> b <= len l ->
  reach a b l (insertionSort key l a b) /\ sorted_range (insertionSort key l a b) a b.
Proof.
  intros Hab Hb. unfold insertionSort.
  destruct (Z.eq_dec a b) as [<-|Hne].
  - rewrite Z.sub_diag. simpl. split; [apply reach_refl|apply sorted_range_small; lia].
  - apply insertionLoop_spec; try lia. apply sorted_range_small. lia.
Qed.

Lemma div2_spec x : 2 * (x / 2) <= x < 2 * (x / 2) + 2.
Proof.
  pose proof (Z.div_mod x 2 ltac:(lia)). pose proof (Z.mod_pos_bound x 2 ltac:(lia)). lia.
Qed.

(** [lia] after recording the bounds of every halving in sight. *)
Ltac div2_facts :=
  repeat match goal with
  | |- context [?x / 2] =>
      lazymatch goal with
      | _ : 2 * (x / 2) <= x < _ |- _ => fail
      | _ => pose proof (div2_spec x)
      end
  | H : context [?x / 2] |- _ =>
      lazymatch goal with
      | _ : 2 * (x / 2) <= x < _ |- _ => fail
      | _ => pose proof (div2_spec x)
      end
  end.

Ltac zlia := div2_facts; lia.

(** Heap order of the nodes [[0, m)] stored from position [first]: every
    node whose parent is at least [lo] is below its parent. *)
Definition heap_from l first lo m : Prop :=
  forall c, 0 < c < m -> lo <= (c - 1) / 2 ->
  kat l (first + c) <= kat l (first + (c - 1) / 2).

(** Loop invariant of siftDown at [root]: heap order except below [root],
    and the children of [root] are below the parent of [root]. *)
Definition sift_inv l first lo m root : Prop :=
  (forall c, 0 < c < m -> lo <= (c - 1) / 2 -> (c - 1) / 2 <> root ->
   kat l (first + c) <= kat l (first + (c - 1) / 2)) /\
  (lo < root -> forall c, 0 < c < m -> (c - 1) / 2 = root ->
   kat l (first + c) <= kat l (first + (root - 1) / 2)).

Lemma choose_child l first m root :
  0 <= first -> 0 <= root -> 2 * root + 1 < m -> first + m <= len l ->
  let cm := if (2 * root + 1 + 1 <? m) &&
               lessAt key l (first + (2 * root + 1)) (first + (2 * root + 1) + 1)
            then 2 * root + 1 + 1 else 2 * root + 1 in
  root < cm < m /\ (cm - 1) / 2 = root /\
  forall c, 0 < c < m -> (c - 1) / 2 = root -> kat l (first + c) <= kat l (first + cm).
Proof.
  intros Hf Hr Hm Hl cm. unfold cm.
  replace (first + (2 * root + 1) + 1) with (first + (2 * root + 2)) by lia.
  replace (2 * root + 1 + 1) with (2 * root + 2) by lia.
  destruct (Z.ltb_spec (2 * root + 2) m); cbn [andb].
  - rewrite lessAt_kat by lia.
    destruct (Z.ltb_spec (kat l (first + (2 * root + 1))) (kat l (first + (2 * root + 2))));
      cbv iota; (repeat split; try zlia); intros c ? ?;
      (assert (c = 2 * root + 1 \/ c = 2 * root + 2) as [-> | ->] by zlia); lia.
  - repeat split; try zlia. intros c ? ?.
    assert (c = 2 * root + 1) as -> by zlia. lia.
Qed.

Lemma siftDownLoop_spec n l first m lo root :
  0 <= first -> 0 <= lo <= root -> root <= m -> first + m <= len l ->
  Z.of_nat n >= m - root + 1 -> sift_inv l first lo m root ->
  reach first (first + m) l (siftDownLoop key n l m first root) /\
  heap_from (siftDownLoop key n l m first root) first lo m.
Proof.
  revert l root. induction n as [|f IH]; intros l root Hf Hlo Hr Hl Hn [I1 I2]; [zlia|].
  cbn [siftDownLoop]. destruct (Z.geb_spec (2 * root + 1) m) as [Hc|Hc]; cbv iota.
  - split; [apply reach_refl|]. intros c ? ?.
    destruct (Z.eq_dec ((c - 1) / 2) root); [zlia|]. apply I1; zlia.
  - destruct (choose_child l first m root) as (Hcm1 & Hcm2 & Hcm3); try zlia.
    match goal with |- context [if ?b then 2 * root + 1 + 1 else 2 * root + 1] =>
      set (cm := if b then 2 * root + 1 + 1 else 2 * root + 1) in * end.
    rewrite lessAt_kat by zlia.
    destruct (Z.ltb_spec (kat l (first + root)) (kat l (first + cm))) as [Hlt|Hge]; cbn [negb].
    + set (l' := swap l (first + root) (first + cm)).
      assert (Hk : forall x, kat l' (first + x) =
                if x =? cm then kat l (first + root)
                else if x =? root then kat l (first + cm) else kat l (first + x)).
      { intros x. unfold l'. rewrite kat_swap by zlia.
        zcase; try lia; reflexivity. }
      destruct (IH l' cm) as [R H]; try zlia.
      * unfold l'. rewrite len_swap. zlia.
      * split.
        -- intros c Hc1 Hc2 Hc3. rewrite !Hk.
           destruct (Z.eqb_spec c cm) as [Ec|Ec].
           ++ rewrite Ec, Hcm2. destruct (Z.eqb_spec root cm); [zlia|].
              rewrite Z.eqb_refl. zlia.
           ++ destruct (Z.eqb_spec ((c - 1) / 2) cm) as [Ep|Ep]; [zlia|].
              destruct (Z.eqb_spec c root) as [Er|Er].
              ** subst c. destruct (Z.eqb_spec ((root - 1) / 2) root); [zlia|].
                 apply I2; zlia.
              ** destruct (Z.eqb_spec ((c - 1) / 2) root) as [Ep'|Ep'].
                 --- apply Hcm3; zlia.
                 --- apply I1; zlia.
        -- intros _ c Hc1 Hc2. rewrite !Hk. rewrite Hcm2.
           destruct (Z.eqb_spec c cm); [zlia|]. destruct (Z.eqb_spec c root); [zlia|].
           destruct (Z.eqb_spec root cm); [zlia|]. rewrite Z.eqb_refl.
           rewrite <- Hc2. apply I1; zlia.
      * split; [|exact H].
        apply (reach_step _ _ l (first + root) (first + cm)); [zlia|zlia|exact R].
    + split; [apply reach_refl|]. intros c ? ?.
      destruct (Z.eq_dec ((c - 1) / 2) root) as [E|E]; [|apply I1; zlia].
      rewrite E. transitivity (kat l (first + cm)); [apply Hcm3; zlia|zlia].
Qed.

Lemma siftDown_spec l lo m first :
  0 <= first -> 0 <= lo <= m -> first + m <= len l -> heap_from l first (lo + 1) m ->
  reach first (first + m) l (siftDown key l lo m first) /\
  heap_from (siftDown key l lo m first) first lo m.
Proof.
  intros Hf Hlo Hl Hh. unfold siftDown.
  apply siftDownLoop_spec; try zlia.
  split; [intros c ? ? ?; apply Hh; zlia|zlia].
Qed.

Lemma heap_root_max l first m :
  0 <= m -> heap_from l first 0 m -> forall c, 0 <= c < m -> kat l (first + c) <= kat l first.
Proof.
  intros Hm Hh.
  assert (H : forall k c, (Z.to_nat c <= k)%nat -> 0 <= c < m -> kat l (first + c) <= kat l first).
  { induction k as [|k IH]; intros c Hc Hr.
    - assert (c = 0) as -> by zlia. rewrite Z.add_0_r. zlia.
    - destruct (Z.eq_dec c 0) as [->|Hne]; [rewrite Z.add_0_r; zlia|].
      transitivity (kat l (first + (c - 1) / 2)); [apply Hh; zlia|].
      apply IH; [|zlia]. apply Nat2Z.inj_le. rewrite Z2Nat.id by zlia. zlia. }
  intros c Hc. apply (H (Z.to_nat c)); [zlia|exact Hc].
Qed.

Lemma heapBuild_spec n l m first i :
  0 <= first -> -1 <= i -> i <= (m - 1) / 2 -> 0 <= m -> first + m <= len l ->
  Z.of_nat n >= i + 1 -> heap_from l first (i + 1) m ->
  reach first (first + m) l (heapBuild key n l m first i) /\
  heap_from (heapBuild key n l m first i) first 0 m.
Proof.
  revert l i. induction n as [|f IH]; intros l i Hf Hi Him Hm Hl Hn Hh.
  - simpl. assert (i = -1) as -> by zlia. split; [apply reach_refl|exact Hh].
  - simpl. destruct (Z.geb_spec i 0).
    + assert (i <= m) by zlia.
      destruct (siftDown_spec l i m first) as [R Hs]; try zlia; try exact Hh.
      destruct (IH (siftDown key l i m first) (i - 1)) as [R' H']; try zlia.
      * rewrite (reach_len _ _ _ _ R). zlia.
      * replace (i - 1 + 1) with i by zlia. exact Hs.
      * split; [eapply reach_trans; eauto|exact H'].
    + assert (i = -1) as -> by zlia. split; [apply reach_refl|exact Hh].
Qed.

Lemma heapPop_spec n l first m i :
  0 <= first -> -1 <= i < m -> first + m <= len l -> Z.of_nat n >= i + 1 ->
  heap_from l first 0 (i + 1) ->
  sorted_range l (first + i + 1) (first + m) ->
  (forall x y, 0 <= x <= i -> i < y < m -> kat l (first + x) <= kat l (first + y)) ->
  reach first (first + m) l (heapPop key n l first i) /\
  sorted_range (heapPop key n l first i) first (first + m).
Proof.
  revert l i. induction n as [|f IH]; intros l i Hf Hi Hl Hn Hh Hs Hx.
  - simpl. assert (i = -1) as -> by zlia. split; [apply reach_refl|].
    replace first with (first + -1 + 1) at 1 by zlia. exact Hs.
  - simpl. destruct (Z.geb_spec i 0) as [Hi0|Hi0].
    2: { assert (i = -1) as -> by zlia. split; [apply reach_refl|].
         replace first with (first + -1 + 1) at 1 by zlia. exact Hs. }
    set (l1 := swap l first (first + i)).
    assert (Hk : forall x, kat l1 (first + x) =
              if x =? i then kat l first else if x =? 0 then kat l (first + i)
              else kat l (first + x)).
    { intros x. unfold l1. rewrite kat_swap by zlia.
      zcase; try lia; reflexivity. }
    assert (Hmax := heap_root_max l first (i + 1) ltac:(zlia) Hh).
    destruct (siftDown_spec l1 0 i first) as [R H]; try zlia.
    { unfold l1. rewrite len_swap. zlia. }
    { intros c ? ?. rewrite !Hk. zcase; try zlia. apply Hh; zlia. }
    set (l2 := siftDown key l1 0 i first) in *.
    assert (Hout : forall x, ~ (0 <= x < i) -> kat l2 (first + x) = kat l1 (first + x))
      by (intros x Hx'; apply (reach_outside _ _ _ _ _ R); zlia).
    assert (Hin : forall y, i <= y < m -> forall x, 0 <= x < i ->
              kat l2 (first + x) <= kat l2 (first + y)).
    { intros y Hy x Hx'.
      rewrite (Hout y) by zlia.
      assert (P := reach_forall _ _ _ _ (fun v => v <= kat l1 (first + y)) R).
      replace (first + x) with (first + x) by zlia.
      apply P; [|zlia].
      intros k Hk'. replace k with (first + (k - first)) by zlia. rewrite !Hk.
      zcase; first [zlia | apply Hmax; zlia | apply Hx; zlia]. }
    destruct (IH l2 (i - 1)) as [R' S']; try zlia.
    + rewrite (reach_len _ _ _ _ R). unfold l1. rewrite len_swap. zlia.
    + replace (i - 1 + 1) with i by zlia. exact H.
    + intros x y ? ? ?.
      replace x with (first + (x - first)) by zlia. replace y with (first + (y - first)) by zlia.
      rewrite !Hout by zlia. rewrite !Hk.
      zcase; first
        [ zlia
        | pose proof (Hx 0 (y - first)) as T; rewrite Z.add_0_r in T; apply T; zlia
        | replace (first + (x - first)) with x by zlia;
          replace (first + (y - first)) with y by zlia; apply Hs; zlia ].
    + intros x y ? ?. apply Hin; zlia.
    + split; [|exact S'].
      eapply reach_trans; [|exact R'].
      apply (reach_step _ _ l first (first + i)); [zlia|zlia|].
      eapply reach_weaken; [| |exact R]; zlia.
Qed.

Lemma heapSort_spec l a b :
  0 <= a -> a < b -> b <= len l ->
  reach a b l (heapSort key l a b) /\ sorted_range (heapSort key l a b) a b.
Proof.
  intros Ha Hab Hb. unfold heapSort.
  rewrite Z.quot_div_nonneg by zlia.
  destruct (heapBuild_spec (S (Z.to_nat ((b - a - 1) / 2))) l (b - a) a ((b - a - 1) / 2))
    as [R H]; try zlia; try (intros c ? ?; zlia).
  replace (a + (b - a)) with b in R by zlia.
  destruct (heapPop_spec (Z.to_nat (b - a)) (heapBuild key (S (Z.to_nat ((b - a - 1) / 2))) l
              (b - a) a ((b - a - 1) / 2)) a (b - a) (b - a - 1)) as [R' S'];
    try zlia; try (apply sorted_range_small; zlia); try (intros x y ? ?; zlia).
  - rewrite (reach_len _ _ _ _ R). zlia.
  - replace (b - a - 1 + 1) with (b - a) by zlia. exact H.
  - replace (a + (b - a)) with b in R', S' by zlia.
    split; [eapply reach_trans; eauto|exact S'].
Qed.

(** Everything in [[a, b)] is at least the key just before [a]. *)
Definition lower_bound l a b : Prop :=
  0 < a -> forall k, a <= k < b -> kat l (a - 1) <= kat l k.

Lemma lower_bound_reach l l' a b :
  reach a b l l' -> lower_bound l a b -> lower_bound l' a b.
Proof.
  intros R H Ha k Hk.
  rewrite (reach_outside _ _ _ _ (a - 1) R) by lia.
  apply (reach_forall _ _ _ _ (fun v => kat l (a - 1) <= v) R); [|exact Hk].
  intros k' Hk'. apply H; lia.
Qed.

Lemma sorted_reach_outside l l' a b c d :
  reach c d l l' -> (b <= c \/ d <= a) -> sorted_range l a b -> sorted_range l' a b.
Proof.
  intros R Hd Hs i j ? ? ?.
  rewrite !(reach_outside _ _ _ _ _ R) by lia. apply Hs; lia.
Qed.

Lemma sorted_join l a m b :
  a <= m <= b -> sorted_range l a m -> sorted_range l m b ->
  (forall x y, a <= x < m -> m <= y < b -> kat l x <= kat l y) -> sorted_range l a b.
Proof.
  intros Hm H1 H2 H3 i j ? ? ?.
  destruct (Z_lt_le_dec j m); [apply H1; lia|].
  destruct (Z_lt_le_dec i m); [apply H3; lia|apply H2; lia].
Qed.

(** *** breakPatterns *)

Lemma land_pow2 r k : 0 <= k -> 0 <= Z.land r (2 ^ k - 1) < 2 ^ k.
Proof.
  intros Hk. replace (2 ^ k - 1) with (Z.ones k) by (rewrite Z.ones_equiv; lia).
  rewrite Z.land_ones by exact Hk. apply Z.mod_pos_bound. apply Z.pow_pos_nonneg; lia.
Qed.

Lemma breakLoop_reach n l a b modulus k idx random i :
  0 < b - a -> 0 <= k -> modulus = 2 ^ k -> modulus <= 2 * (b - a) ->
  a <= idx - 1 + i -> idx - 1 + i + Z.of_nat n <= b ->
  reach a b l (breakLoop n l a (b - a) modulus idx random i).
Proof.
  revert l random i. induction n as [|f IH]; intros l random i Hab Hk Hm Hm2 Hi Hn.
  - apply reach_refl.
  - cbn [breakLoop].
    set (r := xorshiftNext random).
    pose proof (land_pow2 r k Hk) as Ho. rewrite <- Hm in Ho.
    set (o := Z.land r (modulus - 1)) in *.
    set (o' := if o >=? b - a then o - (b - a) else o).
    assert (Ho' : 0 <= o' < b - a) by (unfold o'; destruct (Z.geb_spec o (b - a)); lia).
    apply (reach_step _ _ l (idx - 1 + i) (a + o')); [lia|lia|].
    apply IH; lia.
Qed.

Lemma breakPatterns_reach l a b : a <= b -> reach a b l (breakPatterns l a b).
Proof.
  intros Hab. unfold breakPatterns.
  destruct (Z.geb_spec (b - a) 8); [|apply reach_refl].
  rewrite Z.quot_div_nonneg by lia.
  pose proof (Z.div_mod (b - a) 4 ltac:(lia)). pose proof (Z.mod_pos_bound (b - a) 4 ltac:(lia)).
  unfold nextPowerOfTwo, bitsLen.
  destruct (Z.leb_spec (b - a) 0); [lia|].
  pose proof (Z.log2_spec (b - a) ltac:(lia)) as [L1 L2].
  pose proof (Z.log2_nonneg (b - a)).
  rewrite Z.shiftl_1_l.
  apply (breakLoop_reach 3 l a b _ (Z.log2 (b - a) + 1)); try lia.
  rewrite Z.pow_add_r, Z.pow_1_r by lia. lia.
Qed.

(** *** choosePivot *)

Lemma median_in l x y z s : let m := fst (median key l x y z s) in m = x \/ m = y \/ m = z.
Proof.
  unfold median, order2.
  repeat (match goal with |- context [lessAt key l ?u ?v] => destruct (lessAt key l u v) end;
          cbn [fst]); tauto.
Qed.

Lemma medianAdjacent_in l x s :
  let m := fst (medianAdjacent key l x s) in x - 1 <= m <= x + 1.
Proof.
  unfold medianAdjacent. destruct (median_in l (x - 1) x (x + 1) s) as [E|[E|E]];
    cbn zeta in *; rewrite E; lia.
Qed.

Lemma choosePivot_range l a b pivot hint :
  8 <= b - a -> choosePivot key l a b = (pivot, hint) -> a <= pivot < b.
Proof.
  intros Hab E. unfold choosePivot in E.
  rewrite Z.quot_div_nonneg in E by lia.
  pose proof (Z.div_mod (b - a) 4 ltac:(lia)). pose proof (Z.mod_pos_bound (b - a) 4 ltac:(lia)).
  set (q := (b - a) / 4) in *.
  destruct (Z.geb_spec (b - a) 8); [|lia].
  destruct (Z.geb_spec (b - a) 50).
  - destruct (medianAdjacent key l (a + q * 1) 0) as [i1 s1] eqn:E1.
    destruct (medianAdjacent key l (a + q * 2) s1) as [j1 s2] eqn:E2.
    destruct (medianAdjacent key l (a + q * 3) s2) as [k1 s3] eqn:E3.
    destruct (median key l i1 j1 k1 s3) as [j s] eqn:E4.
    pose proof (medianAdjacent_in l (a + q * 1) 0) as M1.
    pose proof (medianAdjacent_in l (a + q * 2) s1) as M2.
    pose proof (medianAdjacent_in l (a + q * 3) s2) as M3.
    pose proof (median_in l i1 j1 k1 s3) as M4.
    rewrite E1 in M1. rewrite E2 in M2. rewrite E3 in M3. rewrite E4 in M4.
    cbn [fst] in *.
    assert (pivot = j) by (destruct (s =? 0), (s =? 12); congruence).
    lia.
  - destruct (median key l (a + q * 1) (a + q * 2) (a + q * 3) 0) as [j s] eqn:E4.
    pose proof (median_in l (a + q * 1) (a + q * 2) (a + q * 3) 0) as M4.
    rewrite E4 in M4. cbn [fst] in *.
    assert (pivot = j) by (destruct (s =? 0), (s =? 12); congruence).
    lia.
Qed.

(** *** reverseRange *)

Lemma reverseLoop_reach n l a b i j :
  a <= i -> j < b -> reach a b l (reverseLoop n l i j).
Proof.
  revert l i j. induction n as [|f IH]; intros l i j Hi Hj; [apply reach_refl|].
  cbn [reverseLoop]. destruct (Z.ltb_spec i j); [|apply reach_refl].
  apply (reach_step _ _ l i j); [lia|lia|]. apply IH; lia.
Qed.

Lemma reverseRange_reach l a b : reach a b l (reverseRange l a b).
Proof. unfold reverseRange. apply reverseLoop_reach; lia. Qed.

(** *** partialInsertionSort *)

Lemma scanSorted_spec n l a i b :
  0 <= a -> a + 1 <= i <= b -> b <= len l -> Z.of_nat n >= b - i -> sorted_range l a i ->
  let i' := scanSorted key n l i b in
  i <= i' <= b /\ sorted_range l a i' /\ (i' < b -> kat l i' < kat l (i' - 1)).
Proof.
  revert i. induction n as [|f IH]; intros i Ha Hi Hb Hn Hs; cbn [scanSorted].
  - assert (i = b) by lia. subst. repeat split; auto; lia.
  - destruct (Z.ltb_spec i b); cbn [andb].
    + rewrite lessAt_kat by lia.
      destruct (Z.ltb_spec (kat l i) (kat l (i - 1))); cbn [negb].
      * repeat split; auto; lia.
      * destruct (IH (i + 1)) as (H1 & H2 & H3); try lia.
        -- intros x y ? ? ?. destruct (Z.eq_dec y i); [|apply Hs; lia].
           subst. destruct (Z.eq_dec x i); [subst; lia|].
           transitivity (kat l (i - 1)); [apply Hs; lia|lia].
        -- repeat split; auto; lia.
    + repeat split; auto; lia.
Qed.

(** Under the lower bound, the [j >= 1] loop of partialInsertionSort stops
    at [a] exactly as insertionSort's [j > a] loop does. *)
Lemma shiftLeft_insertionShift n l a b j :
  0 <= a <= j -> j < b -> b <= len l -> lower_bound l a b ->
  shiftLeft key n l j = insertionShift key n l a j.
Proof.
  revert l j. induction n as [|f IH]; intros l j Ha Hj Hb Hlb; [reflexivity|].
  cbn [shiftLeft insertionShift].
  destruct (Z.geb_spec j 1), (Z.gtb_spec j a); cbn [andb]; try lia.
  - rewrite lessAt_kat by lia.
    destruct (kat l j <? kat l (j - 1)); cbn [negb]; [|reflexivity].
    apply IH; try lia.
    + rewrite len_swap. lia.
    + apply (lower_bound_reach l); [apply reach_swap; lia|exact Hlb].
  - assert (j = a) by lia. subst j.
    rewrite lessAt_kat by lia.
    destruct (Z.ltb_spec (kat l a) (kat l (a - 1))); [|reflexivity].
    specialize (Hlb ltac:(lia) a ltac:(lia)). lia.
  - reflexivity.
Qed.

Lemma shiftRight_reach n l a b j : a <= j - 1 -> reach a b l (shiftRight key n l j b).
Proof.
  revert l j. induction n as [|f IH]; intros l j Hj; [apply reach_refl|].
  cbn [shiftRight]. destruct (Z.ltb_spec j b); [|apply reach_refl].
  destruct (negb (lessAt key l j (j - 1))); [apply reach_refl|].
  apply (reach_step _ _ l j (j - 1)); [lia|lia|]. apply IH; lia.
Qed.

Lemma partialSteps_spec s l a b i :
  0 <= a -> a + 1 <= i <= b -> b <= len l -> sorted_range l a i -> lower_bound l a b ->
  reach a b l (snd (partialSteps key s l a b i)) /\
  (fst (partialSteps key s l a b i) = true -> sorted_range (snd (partialSteps key s l a b i)) a b).
Proof.
  revert l i. induction s as [|s IH]; intros l i Ha Hi Hb Hs Hlb.
  - split; [apply reach_refl|discriminate].
  - cbn [partialSteps].
    destruct (scanSorted_spec (Z.to_nat (b - i)) l a i b) as (S1 & S2 & S3); try lia; auto.
    set (i' := scanSorted key (Z.to_nat (b - i)) l i b) in *.
    destruct (Z.eqb_spec i' b) as [E|E].
    { split; [apply reach_refl|intros _; rewrite <- E; exact S2]. }
    destruct (Z.ltb_spec (b - a) 50).
    { split; [apply reach_refl|discriminate]. }
    specialize (S3 ltac:(lia)).
    set (l1 := swap l i' (i' - 1)).
    assert (R1 : reach a b l l1) by (apply reach_swap; lia).
    assert (K1 : forall k, k < i' - 1 -> kat l1 k = kat l k)
      by (intros k Hk; apply (reach_outside _ _ _ _ _ (reach_swap (i' - 1) b l i' (i' - 1)
                                                         ltac:(lia) ltac:(lia))); lia).
    set (l2 := if i' - a >=? 2 then shiftLeft key (Z.to_nat (i' - 1)) l1 (i' - 1) else l1).
    assert (R2 : reach a i' l1 l2 /\ sorted_range l2 a i').
    { unfold l2. destruct (Z.geb_spec (i' - a) 2).
      - rewrite (shiftLeft_insertionShift _ _ a b) by
          first [ lia | unfold l1; rewrite len_swap; lia
                | apply (lower_bound_reach l); [exact R1|exact Hlb] ].
        destruct (insertionShift_spec (Z.to_nat (i' - 1)) l1 a (i' - 1) (i' - 1)) as [T1 T2];
          try lia;
          first [ unfold l1; rewrite len_swap; lia
                | intros x y ? ? ?; rewrite !K1 by lia; apply S2; lia
                | apply sorted_range_small; lia
                | intros x y ? ?; lia
                | intros y ?; lia
                | replace (i' - 1 + 1) with i' in T1, T2 by lia; split; assumption ].
      - split; [apply reach_refl|apply sorted_range_small; lia]. }
    destruct R2 as [R2 Hs2].
    set (l3 := if b - i' >=? 2 then shiftRight key (Z.to_nat (b - i' - 1)) l2 (i' + 1) b else l2).
    assert (R3 : reach i' b l2 l3).
    { unfold l3. destruct (Z.geb_spec (b - i') 2); [apply shiftRight_reach; lia|apply reach_refl]. }
    assert (R : reach a b l l3).
    { apply (reach_trans _ _ _ l1); [exact R1|].
      apply (reach_trans _ _ _ l2); [eapply reach_weaken; [| |exact R2]; lia|].
      eapply reach_weaken; [| |exact R3]; lia. }
    destruct (IH l3 i') as [IH1 IH2]; try lia.
    + rewrite (reach_len _ _ _ _ R). lia.
    + apply (sorted_reach_outside l2 l3 a i' i' b); auto; lia.
    + apply (lower_bound_reach l); auto.
    + split; [apply (reach_trans _ _ _ l3); auto|exact IH2].
Qed.

Lemma partialInsertionSort_spec l a b :
  0 <= a < b -> b <= len l -> lower_bound l a b ->
  reach a b l (snd (partialInsertionSort key l a b)) /\
  (fst (partialInsertionSort key l a b) = true ->
   sorted_range (snd (partialInsertionSort key l a b)) a b).
Proof.
  intros Hab Hb Hlb. unfold partialInsertionSort.
  apply partialSteps_spec; try lia; auto. apply sorted_range_small. lia.
Qed.

(** *** partitionEqual *)

Lemma scanNotGreater_spec n l a i j :
  0 <= a < i -> i <= j + 1 -> j < len l -> Z.of_nat n >= j - i + 1 ->
  let i' := scanNotGreater key n l a i j in
  i <= i' <= j + 1 /\ (forall k, i <= k < i' -> kat l k <= kat l a) /\
  (i' <= j -> kat l a < kat l i').
Proof.
  revert i. induction n as [|f IH]; intros i Ha Hi Hj Hn; cbn [scanNotGreater].
  - repeat split; try lia.
  - destruct (Z.leb_spec i j); cbn [andb].
    + rewrite lessAt_kat by lia.
      destruct (Z.ltb_spec (kat l a) (kat l i)); cbn [negb].
      * repeat split; try lia.
      * destruct (IH (i + 1)) as (H1 & H2 & H3); try lia.
        repeat split; try lia; auto.
        intros k Hk. destruct (Z.eq_dec k i); [subst; lia|apply H2; lia].
    + repeat split; lia.
Qed.

Lemma scanGreater_spec n l a i j :
  0 <= a < i -> i - 1 <= j -> j < len l -> Z.of_nat n >= j - i + 1 ->
  let j' := scanGreater key n l a i j in
  i - 1 <= j' <= j /\ (forall k, j' < k <= j -> kat l a < kat l k) /\
  (i <= j' -> kat l j' <= kat l a).
Proof.
  revert j. induction n as [|f IH]; intros j Ha Hi Hj Hn; cbn [scanGreater].
  - repeat split; try lia.
  - destruct (Z.leb_spec i j); cbn [andb].
    + rewrite lessAt_kat by lia.
      destruct (Z.ltb_spec (kat l a) (kat l j)).
      * destruct (IH (j - 1)) as (H1 & H2 & H3); try lia.
        repeat split; try lia; auto.
        intros k Hk. destruct (Z.eq_dec k j); [subst; lia|apply H2; lia].
      * repeat split; try lia.
    + repeat split; lia.
Qed.

Lemma partitionEqualLoop_spec n l a b i j :
  0 <= a -> a + 1 <= i <= j + 1 -> j + 1 <= b -> b <= len l -> Z.of_nat n >= j - i + 2 ->
  (forall k, a + 1 <= k < i -> kat l k <= kat l a) ->
  (forall k, j < k < b -> kat l a < kat l k) ->
  let '(mid, l') := partitionEqualLoop key n l a i j in
  reach (a + 1) b l l' /\ a + 1 <= mid <= b /\ kat l' a = kat l a /\
  (forall k, a + 1 <= k < mid -> kat l' k <= kat l a) /\
  (forall k, mid <= k < b -> kat l a < kat l' k).
Proof.
  revert l i j. induction n as [|f IH]; intros l i j Ha Hi Hj Hb Hn Hlo Hhi; [lia|].
  cbn [partitionEqualLoop].
  destruct (scanNotGreater_spec (Z.to_nat (j - i + 1)) l a i j) as (A1 & A2 & A3); try lia.
  set (i' := scanNotGreater key (Z.to_nat (j - i + 1)) l a i j) in *.
  destruct (scanGreater_spec (Z.to_nat (j - i' + 1)) l a i' j) as (B1 & B2 & B3); try lia.
  set (j' := scanGreater key (Z.to_nat (j - i' + 1)) l a i' j) in *.
  destruct (Z.gtb_spec i' j').
  - repeat split; try lia; [apply reach_refl| |].
    + intros k Hk. destruct (Z_lt_le_dec k i); [apply Hlo; lia|apply A2; lia].
    + intros k Hk. destruct (Z_le_gt_dec k j); [apply B2; lia|apply Hhi; lia].
  - specialize (A3 ltac:(lia)). specialize (B3 ltac:(lia)).
    assert (i' < j') by (destruct (Z.eq_dec i' j') as [Eij|]; [rewrite Eij in A3; lia|lia]).
    set (l1 := swap l i' j').
    assert (Hk : forall k, kat l1 k = if k =? j' then kat l i' else if k =? i' then kat l j' else kat l k)
      by (intros k; unfold l1; apply kat_swap; lia).
    assert (Ea : kat l1 a = kat l a) by (rewrite Hk; zcase; lia).
    specialize (IH l1 (i' + 1) (j' - 1)).
    destruct (partitionEqualLoop key f l1 a (i' + 1) (j' - 1)) as [mid l'].
    destruct IH as (R & M & E & H1 & H2); try lia.
    + unfold l1. rewrite len_swap. lia.
    + intros k Hk'. rewrite Ea, Hk. zcase; try lia.
      destruct (Z_lt_le_dec k i); [apply Hlo; lia|apply A2; lia].
    + intros k Hk'. rewrite Ea, Hk. zcase; try lia.
      destruct (Z_le_gt_dec k j); [apply B2; lia|apply Hhi; lia].
    + rewrite Ea in *. repeat split; auto; [|lia|lia].
      apply (reach_step _ _ l i' j'); [lia|lia|exact R].
Qed.

Lemma partitionEqual_spec l a b pivot :
  0 <= a < b -> b <= len l -> a <= pivot < b ->
  let '(mid, l') := partitionEqual key l a b pivot in
  reach a b l l' /\ a + 1 <= mid <= b /\
  (forall k, a <= k < mid -> kat l' k <= kat l pivot) /\
  (forall k, mid <= k < b -> kat l pivot < kat l' k).
Proof.
  intros Hab Hb Hp. unfold partitionEqual.
  set (l1 := swap l a pivot).
  assert (Ea : kat l1 a = kat l pivot) by (unfold l1; rewrite kat_swap by lia; zcase; try lia; congruence).
  pose proof (partitionEqualLoop_spec (Z.to_nat (b - a)) l1 a b (a + 1) (b - 1)) as P.
  destruct (partitionEqualLoop key (Z.to_nat (b - a)) l1 a (a + 1) (b - 1)) as [mid l'].
  destruct P as (R & M & E & H1 & H2); try lia; try (intros k ?; lia).
  - unfold l1. rewrite len_swap. lia.
  - rewrite Ea in *. repeat split; auto; try lia.
    + apply (reach_step _ _ l a pivot); [lia|lia|]. eapply reach_weaken; [| |exact R]; lia.
    + intros k Hk. destruct (Z.eq_dec k a); [subst; lia|apply H1; lia].
Qed.

(** *** partition *)

Lemma scanLess_spec n l a i j :
  0 <= a < i -> i <= j + 1 -> j < len l -> Z.of_nat n >= j - i + 1 ->
  let i' := scanLess key n l a i j in
  i <= i' <= j + 1 /\ (forall k, i <= k < i' -> kat l k < kat l a) /\
  (i' <= j -> kat l a <= kat l i').
Proof.
  revert i. induction n as [|f IH]; intros i Ha Hi Hj Hn; cbn [scanLess].
  - repeat split; try lia.
  - destruct (Z.leb_spec i j); cbn [andb].
    + rewrite lessAt_kat by lia.
      destruct (Z.ltb_spec (kat l i) (kat l a)).
      * destruct (IH (i + 1)) as (H1 & H2 & H3); try lia.
        repeat split; try lia; auto.
        intros k Hk. destruct (Z.eq_dec k i); [subst; lia|apply H2; lia].
      * repeat split; try lia.
    + repeat split; lia.
Qed.

Lemma scanNotLess_spec n l a i j :
  0 <= a < i -> i - 1 <= j -> j < len l -> Z.of_nat n >= j - i + 1 ->
  let j' := scanNotLess key n l a i j in
  i - 1 <= j' <= j /\ (forall k, j' < k <= j -> kat l a <= kat l k) /\
  (i <= j' -> kat l j' < kat l a).
Proof.
  revert j. induction n as [|f IH]; intros j Ha Hi Hj Hn; cbn [scanNotLess].
  - repeat split; try lia.
  - destruct (Z.leb_spec i j); cbn [andb].
    + rewrite lessAt_kat by lia.
      destruct (Z.ltb_spec (kat l j) (kat l a)); cbn [negb].
      * repeat split; try lia.
      * destruct (IH (j - 1)) as (H1 & H2 & H3); try lia.
        repeat split; try lia; auto.
        intros k Hk. destruct (Z.eq_dec k j); [subst; lia|apply H2; lia].
    + repeat split; lia.
Qed.

Lemma partitionLoop_spec n l a b i j :
  0 <= a -> a + 1 <= i <= j + 1 -> j + 1 <= b -> b <= len l -> Z.of_nat n >= j - i + 2 ->
  (forall k, a + 1 <= k < i -> kat l k < kat l a) ->
  (forall k, j < k < b -> kat l a <= kat l k) ->
  let '(mid, l') := partitionLoop key n l a i j in
  reach (a + 1) b l l' /\ a <= mid < b /\ kat l' a = kat l a /\
  (forall k, a + 1 <= k <= mid -> kat l' k < kat l a) /\
  (forall k, mid < k < b -> kat l a <= kat l' k).
Proof.
  revert l i j. induction n as [|f IH]; intros l i j Ha Hi Hj Hb Hn Hlo Hhi; [lia|].
  cbn [partitionLoop].
  destruct (scanLess_spec (Z.to_nat (j - i + 1)) l a i j) as (A1 & A2 & A3); try lia.
  set (i' := scanLess key (Z.to_nat (j - i + 1)) l a i j) in *.
  destruct (scanNotLess_spec (Z.to_nat (j - i' + 1)) l a i' j) as (B1 & B2 & B3); try lia.
  set (j' := scanNotLess key (Z.to_nat (j - i' + 1)) l a i' j) in *.
  destruct (Z.gtb_spec i' j').
  - repeat split; try lia; [apply reach_refl| |].
    + intros k Hk. destruct (Z_lt_le_dec k i); [apply Hlo; lia|apply A2; lia].
    + intros k Hk. destruct (Z_le_gt_dec k j); [apply B2; lia|apply Hhi; lia].
  - specialize (A3 ltac:(lia)). specialize (B3 ltac:(lia)).
    assert (i' < j') by (destruct (Z.eq_dec i' j') as [Eij|]; [rewrite Eij in A3; lia|lia]).
    set (l1 := swap l i' j').
    assert (Hk : forall k, kat l1 k = if k =? j' then kat l i' else if k =? i' then kat l j' else kat l k)
      by (intros k; unfold l1; apply kat_swap; lia).
    assert (Ea : kat l1 a = kat l a) by (rewrite Hk; zcase; lia).
    specialize (IH l1 (i' + 1) (j' - 1)).
    destruct (partitionLoop key f l1 a (i' + 1) (j' - 1)) as [mid l'].
    destruct IH as (R & M & E & H1 & H2); try lia.
    + unfold l1. rewrite len_swap. lia.
    + intros k Hk'. rewrite Ea, Hk. zcase; try lia.
      destruct (Z_lt_le_dec k i); [apply Hlo; lia|apply A2; lia].
    + intros k Hk'. rewrite Ea, Hk. zcase; try lia.
      destruct (Z_le_gt_dec k j); [apply B2; lia|apply Hhi; lia].
    + rewrite Ea in *. repeat split; auto; [|lia|lia].
      apply (reach_step _ _ l i' j'); [lia|lia|exact R].
Qed.

(** The last swap of partition puts the pivot at [mid]. *)
Lemma partition_finish l a b mid :
  0 <= a <= mid -> mid < b -> b <= len l ->
  (forall k, a + 1 <= k <= mid -> kat l k < kat l a) ->
  (forall k, mid < k < b -> kat l a <= kat l k) ->
  let l' := swap l mid a in
  reach a b l l' /\ (forall k, a <= k < mid -> kat l' k < kat l a) /\
  kat l' mid = kat l a /\ (forall k, mid < k < b -> kat l a <= kat l' k).
Proof.
  intros Ha Hm Hb Hlo Hhi l'.
  assert (Hk : forall k, kat l' k = if k =? a then kat l mid else if k =? mid then kat l a else kat l k)
    by (intros k; unfold l'; apply kat_swap; lia).
  repeat split.
  - apply reach_swap; lia.
  - intros k ?. rewrite Hk. zcase; try lia; apply Hlo; lia.
  - rewrite Hk. zcase; try lia; congruence.
  - intros k ?. rewrite Hk. zcase; try lia. apply Hhi; lia.
Qed.

Lemma partition_spec l a b pivot :
  0 <= a < b -> b <= len l -> a <= pivot < b ->
  let '(mid, _, l') := partition key l a b pivot in
  reach a b l l' /\ a <= mid < b /\
  (forall k, a <= k < mid -> kat l' k < kat l pivot) /\ kat l' mid = kat l pivot /\
  (forall k, mid < k < b -> kat l pivot <= kat l' k).
Proof.
  intros Hab Hb Hp. unfold partition.
  set (l1 := swap l a pivot).
  assert (Ea : kat l1 a = kat l pivot) by (unfold l1; rewrite kat_swap by lia; zcase; try lia; congruence).
  assert (R1 : reach a b l l1) by (apply reach_swap; lia).
  assert (L1 : len l1 = len l) by apply len_swap.
  destruct (scanLess_spec (Z.to_nat (b - 1 - (a + 1) + 1)) l1 a (a + 1) (b - 1)) as (A1 & A2 & A3);
    try lia.
  set (i' := scanLess key (Z.to_nat (b - 1 - (a + 1) + 1)) l1 a (a + 1) (b - 1)) in *.
  destruct (scanNotLess_spec (Z.to_nat (b - 1 - i' + 1)) l1 a i' (b - 1)) as (B1 & B2 & B3); try lia.
  set (j' := scanNotLess key (Z.to_nat (b - 1 - i' + 1)) l1 a i' (b - 1)) in *.
  destruct (Z.gtb_spec i' j').
  - destruct (partition_finish l1 a b j') as (F1 & F2 & F3 & F4); try lia.
    + intros k ?. apply A2; lia.
    + intros k ?. apply B2; lia.
    + rewrite Ea in *. repeat split; auto; try lia. eapply reach_trans; eauto.
  - specialize (A3 ltac:(lia)). specialize (B3 ltac:(lia)).
    assert (i' < j') by (destruct (Z.eq_dec i' j') as [Eij|]; [rewrite Eij in A3; lia|lia]).
    set (l2 := swap l1 i' j').
    assert (Hk : forall k, kat l2 k = if k =? j' then kat l1 i' else if k =? i' then kat l1 j' else kat l1 k)
      by (intros k; unfold l2; apply kat_swap; lia).
    assert (Ea2 : kat l2 a = kat l1 a) by (rewrite Hk; zcase; lia).
    pose proof (partitionLoop_spec (Z.to_nat (b - a)) l2 a b (i' + 1) (j' - 1)) as P.
    destruct (partitionLoop key (Z.to_nat (b - a)) l2 a (i' + 1) (j' - 1)) as [mid l3].
    destruct P as (R & M & E & H1 & H2); try lia.
    + unfold l2. rewrite len_swap. lia.
    + intros k Hk'. rewrite Ea2, Hk. zcase; try lia. apply A2; lia.
    + intros k Hk'. rewrite Ea2, Hk. zcase; try lia. apply B2; lia.
    + rewrite Ea2 in *.
      destruct (partition_finish l3 a b mid) as (F1 & F2 & F3 & F4); try lia.
      * rewrite (reach_len _ _ _ _ R). unfold l2. rewrite len_swap. lia.
      * rewrite E. exact H1.
      * rewrite E. exact H2.
      * rewrite E, Ea in *. repeat split; auto; try lia.
        apply (reach_trans _ _ _ l1); [exact R1|].
        apply (reach_step _ _ l1 i' j'); [lia|lia|].
        apply (reach_trans _ _ _ l3); [eapply reach_weaken; [| |exact R]; lia|exact F1].
Qed.

(** *** pdqsort *)

Lemma lower_bound_sub l a b b' : b' <= b -> lower_bound l a b -> lower_bound l a b'.
Proof. intros Hb H Ha k Hk. apply H; lia. Qed.

(** The three parts left by partition, each in place, make a sorted range. *)
Lemma sorted_pivot l a mid b p :
  a <= mid < b -> sorted_range l a mid -> sorted_range l (mid + 1) b ->
  (forall x, a <= x < mid -> kat l x < p) -> kat l mid = p ->
  (forall y, mid < y < b -> p <= kat l y) -> sorted_range l a b.
Proof.
  intros Hm S1 S2 H1 H2 H3.
  apply (sorted_join l a mid b); [lia|exact S1| |].
  - apply (sorted_join l mid (mid + 1) b); [lia|apply sorted_range_small; lia|exact S2|].
    intros x y ? ?. assert (x = mid) as -> by lia. rewrite H2. apply H3; lia.
  - intros x y ? ?. specialize (H1 x ltac:(lia)).
    destruct (Z.eq_dec y mid) as [->|]; [lia|]. specialize (H3 y ltac:(lia)). lia.
Qed.

Lemma pdqsort_spec fuel l a b limit wb wp :
  0 <= a <= b -> b <= len l -> Z.of_nat fuel > b - a -> lower_bound l a b ->
  reach a b l (pdqsort key fuel l a b limit wb wp) /\
  sorted_range (pdqsort key fuel l a b limit wb wp) a b.
Proof.
  revert l a b limit wb wp.
  induction fuel as [|f IH]; intros l a b limit wb wp Hab Hb Hf Hlb; [lia|].
  cbn [pdqsort].
  destruct (Z.leb_spec (b - a) 12). { apply insertionSort_spec; lia. }
  destruct (Z.eqb_spec limit 0). { apply heapSort_spec; lia. }
  destruct (if negb wb then (breakPatterns l a b, limit - 1) else (l, limit)) as [l1 lim1] eqn:E1.
  assert (R1 : reach a b l l1).
  { destruct wb; cbn [negb] in E1; injection E1; intros; subst;
      [apply reach_refl|apply breakPatterns_reach; lia]. }
  destruct (choosePivot key l1 a b) as [pv h] eqn:E2.
  assert (P1 : a <= pv < b) by (eapply choosePivot_range; [lia|exact E2]).
  destruct (match h with
            | decreasingHint => (reverseRange l1 a b, b - 1 - (pv - a), increasingHint)
            | _ => (l1, pv, h)
            end) as [[l2 pv2] h2] eqn:E3.
  assert (R2 : reach a b l1 l2 /\ a <= pv2 < b).
  { destruct h; injection E3; intros; subst;
      (split; [apply reach_refl || apply reverseRange_reach|lia]). }
  destruct R2 as [R2 P2].
  destruct (if wb && wp && isIncreasing h2 then partialInsertionSort key l2 a b else (false, l2))
    as [srt l3] eqn:E4.
  assert (R12 : reach a b l l2) by (eapply reach_trans; eauto).
  assert (L2 : len l2 = len l) by (apply (reach_len _ _ _ _ R12)).
  assert (R3 : reach a b l2 l3 /\ (srt = true -> sorted_range l3 a b)).
  { destruct (wb && wp && isIncreasing h2).
    - pose proof (partialInsertionSort_spec l2 a b) as PI. rewrite E4 in PI. apply PI; try lia.
      apply (lower_bound_reach l); auto.
    - injection E4; intros; subst. split; [apply reach_refl|discriminate]. }
  destruct R3 as [R3 S3].
  assert (R13 : reach a b l l3) by (eapply reach_trans; eauto).
  assert (L3 : len l3 = len l) by (apply (reach_len _ _ _ _ R13)).
  assert (LB3 : lower_bound l3 a b) by (apply (lower_bound_reach l); auto).
  destruct srt. { split; [exact R13|apply S3; reflexivity]. }
  set (p := kat l3 pv2).
  destruct ((a >? 0) && negb (lessAt key l3 (a - 1) pv2)) eqn:E5.
  - (* partitionEqual: the prefix equals the key before [a] *)
    apply andb_true_iff in E5. destruct E5 as [E5a E5b]. apply Z.gtb_lt in E5a.
    rewrite lessAt_kat in E5b by lia. apply negb_true_iff, Z.ltb_ge in E5b.
    assert (Ep : kat l3 (a - 1) = p) by (specialize (LB3 E5a pv2 P2); unfold p; lia).
    pose proof (partitionEqual_spec l3 a b pv2) as PE.
    destruct (partitionEqual key l3 a b pv2) as [mid l4].
    destruct PE as (R4 & M & H1 & H2); try lia. fold p in H1, H2.
    assert (R14 : reach a b l l4) by (eapply reach_trans; eauto).
    assert (LB4 : lower_bound l4 a b) by (apply (lower_bound_reach l); auto).
    assert (Eq4 : forall x, a <= x < mid -> kat l4 x = p).
    { intros x Hx. specialize (H1 x Hx). specialize (LB4 E5a x ltac:(lia)).
      rewrite (reach_outside _ _ _ _ _ R4) in LB4 by lia. lia. }
    destruct (IH l4 mid b lim1 wb wp) as [R5 S5]; try lia.
    + rewrite (reach_len _ _ _ _ R14). lia.
    + intros _ k Hk. rewrite Eq4 by lia. apply Z.lt_le_incl, H2; lia.
    + split.
      * eapply reach_trans; [exact R14|]. eapply reach_weaken; [| |exact R5]; lia.
      * apply (sorted_join _ a mid b); [lia| |exact S5|].
        -- intros x y ? ? ?. rewrite !(reach_outside _ _ _ _ _ R5) by lia.
           rewrite !Eq4 by lia. lia.
        -- intros x y ? ?. rewrite (reach_outside _ _ _ _ _ R5) by lia. rewrite Eq4 by lia.
           apply Z.lt_le_incl.
           apply (reach_forall _ _ _ _ (fun v => p < v) R5); [|lia].
           intros k ?. apply H2; lia.
  - pose proof (partition_spec l3 a b pv2) as PS.
    destruct (partition key l3 a b pv2) as [[mid already] l4].
    destruct PS as (R4 & M & F1 & F2 & F3); try lia. fold p in F1, F2, F3.
    assert (R14 : reach a b l l4) by (eapply reach_trans; eauto).
    assert (L4 : len l4 = len l) by (apply (reach_len _ _ _ _ R14)).
    assert (LB4 : lower_bound l4 a b) by (apply (lower_bound_reach l); auto).
    destruct (mid - a <? b - mid).
    + destruct (IH l4 a mid lim1 true true) as [R5 S5]; try lia.
      { apply (lower_bound_sub _ _ b); [lia|exact LB4]. }
      set (l5 := pdqsort key f l4 a mid lim1 true true) in *.
      assert (G2 : kat l5 mid = p) by (rewrite (reach_outside _ _ _ _ _ R5) by lia; exact F2).
      assert (G3 : forall y, mid < y < b -> p <= kat l5 y)
        by (intros y ?; rewrite (reach_outside _ _ _ _ _ R5) by lia; apply F3; lia).
      destruct (IH l5 (mid + 1) b lim1 (mid - a >=? Z.quot (b - a) 8) already) as [R6 S6];
        try lia.
      { rewrite (reach_len _ _ _ _ R5). lia. }
      { intros _ k Hk. replace (mid + 1 - 1) with mid by lia. rewrite G2. apply G3; lia. }
      split.
      * eapply reach_trans; [exact R14|]. eapply reach_trans; eapply reach_weaken;
          [| |exact R5| | |exact R6]; lia.
      * apply (sorted_pivot _ a mid b p); [lia| |exact S6| | |].
        -- apply (sorted_reach_outside _ _ _ _ _ _ R6); [lia|exact S5].
        -- intros x ?. rewrite (reach_outside _ _ _ _ _ R6) by lia.
           apply (reach_forall _ _ _ _ (fun v => v < p) R5); [|lia].
           intros k ?. apply F1; lia.
        -- rewrite (reach_outside _ _ _ _ _ R6) by lia. exact G2.
        -- intros y ?. apply (reach_forall _ _ _ _ (fun v => p <= v) R6); [|lia].
           intros k ?. apply G3; lia.
    + destruct (IH l4 (mid + 1) b lim1 true true) as [R5 S5]; try lia.
      { intros _ k Hk. replace (mid + 1 - 1) with mid by lia. rewrite F2. apply F3; lia. }
      set (l5 := pdqsort key f l4 (mid + 1) b lim1 true true) in *.
      assert (G1 : forall x, a <= x < mid -> kat l5 x < p)
        by (intros x ?; rewrite (reach_outside _ _ _ _ _ R5) by lia; apply F1; lia).
      assert (G2 : kat l5 mid = p) by (rewrite (reach_outside _ _ _ _ _ R5) by lia; exact F2).
      destruct (IH l5 a mid lim1 (b - mid >=? Z.quot (b - a) 8) already) as [R6 S6]; try lia.
      { rewrite (reach_len _ _ _ _ R5). lia. }
      { intros Ha k Hk. rewrite !(reach_outside _ _ _ _ _ R5) by lia. apply LB4; lia. }
      split.
      * eapply reach_trans; [exact R14|]. eapply reach_trans; eapply reach_weaken;
          [| |exact R5| | |exact R6]; lia.
      * apply (sorted_pivot _ a mid b p); [lia|exact S6| | | |].
        -- apply (sorted_reach_outside _ _ _ _ _ _ R6); [lia|exact S5].
        -- intros x ?. apply (reach_forall _ _ _ _ (fun v => v < p) R6); [|lia].
           intros k ?. apply G1; lia.
        -- rewrite (reach_outside _ _ _ _ _ R6) by lia. exact G2.
        -- intros y ?. rewrite (reach_outside _ _ _ _ _ R6) by lia.
           apply (reach_forall _ _ _ _ (fun v => p <= v) R5); [|lia].
           intros k ?. apply F3; lia.
Qed.

Lemma sortSlice_spec l :
  Permutation l (sortSlice key l) /\ sorted_range (sortSlice key l) 0 (len l).
Proof.
  unfold sortSlice.
  destruct (pdqsort_spec (S (List.length l)) l 0 (Z.of_nat (List.length l))
              (bitsLen (Z.of_nat (List.length l))) true true) as [R S];
    unfold len in *; try lia.
  - intros H. lia.
  - split; [apply (reach_perm _ _ _ _ R)|exact S].
Qed.

End SortProofs.

Lemma kat_cons {A} (key : A -> Z) x l k : 0 <= k -> kat A key (x :: l) (k + 1) = kat A key l k.
Proof.
  intros Hk. unfold kat, get.
  destruct (Z.ltb_spec (k + 1) 0); [lia|]. destruct (Z.ltb_spec k 0); [lia|].
  rewrite Z2Nat.inj_add by lia. rewrite Nat.add_comm. reflexivity.
Qed.

Lemma sorted_range_Sorted {A} (key : A -> Z) l :
  sorted_range A key l 0 (len A l) -> Sorted (fun x y => key x <= key y) l.
Proof.
  induction l as [|x l IH]; intros H; [constructor|].
  constructor.
  - apply IH. intros i j ? ? ?.
    rewrite <- (kat_cons key x l i), <- (kat_cons key x l j) by lia.
    apply H; unfold len in *; try lia.
    change (Datatypes.length (x :: l)) with (S (Datatypes.length l)). lia.
  - destruct l as [|y l']; constructor.
    specialize (H 0 1 ltac:(lia) ltac:(lia)
                  ltac:(unfold len; change (Datatypes.length (x :: y :: l'))
                                      with (S (S (Datatypes.length l'))); lia)).
    exact H.
Qed.

(** Claim C3 (counterexample). Thirteen events, twelve of them at the same
    start time: the result is ordered by start time, but the tied events do
    not keep their index order (index 6 comes before index 2). *)
Lemma generate_timeline_ties_not_by_index :
  map TE.StartTime (GenerateTimeline tieEntries) =
    [0; 1000; 1000; 1000; 1000; 1000; 1000; 1000; 1000; 1000; 1000; 1000; 1000] /\
  map TE.Index (GenerateTimeline tieEntries) = [12; 6; 2; 3; 4; 5; 0; 7; 8; 9; 10; 11; 1] /\
  startThenIndexOrdered (GenerateTimeline tieEntries) = false.
Proof. vm_compute. repeat split. Qed.

(** Claim C3 (amended). For every entry collection, GenerateTimeline returns
    the events in non-decreasing order of start time. *)
Theorem generate_timeline_sorted (entries : list Entry) :
  Sorted (fun e1 e2 => TE.StartTime e1 <= TE.StartTime e2) (GenerateTimeline entries).
Proof.
  unfold GenerateTimeline. apply sorted_range_Sorted.
  destruct (sortSlice_spec _ TE.StartTime (timelineEvents entries)) as [P S].
  unfold len in *. rewrite <- (Permutation_length P). exact S.
Qed.

(** Claim C8. For every entry collection, the events returned by
    GenerateTimeline are a permutation of the per-entry events built in
    entry order: one event per entry, with its fields unchanged. *)
Theorem generate_timeline_permutation (entries : list Entry) :
  Permutation (timelineEvents entries) (GenerateTimeline entries).
Proof.
  unfold GenerateTimeline.
  exact (proj1 (sortSlice_spec _ TE.StartTime (timelineEvents entries))).
Qed.

(* ================================================================== *)
(** * Further properties of the analyzer, the TUI and the comparator *)

Lemma sortSlice_sorted {A} (key : A -> Z) l :
  Permutation l (sortSlice key l) /\ Sorted (fun x y => key x <= key y) (sortSlice key l).
Proof.
  destruct (sortSlice_spec A key l) as [P S].
  split; [exact P|]. apply sorted_range_Sorted.
  unfold len in *. rewrite <- (Permutation_length P). exact S.
Qed.

Lemma StronglySorted_app_inv {A} (R : A -> A -> Prop) l1 l2 :
  StronglySorted R (l1 ++ l2) ->
  StronglySorted R l1 /\ (forall x y, In x l1 -> In y l2 -> R x y).
Proof.
  induction l1 as [|a l1 IH]; simpl; intros H.
  - split; [constructor|intros ? ? []].
  - apply StronglySorted_inv in H as [H1 H2].
    destruct (IH H1) as [S F]. split.
    + constructor; [exact S|]. apply Forall_forall. intros x Hx.
      rewrite Forall_forall in H2. apply H2, in_or_app; auto.
    + intros x y [<-|Hx] Hy; [|auto].
      rewrite Forall_forall in H2. apply H2, in_or_app; auto.
Qed.

Lemma headSlice_nonneg {A} (l : list A) limit :
  0 <= limit ->
  headSlice l limit = Some (firstn (Z.to_nat (Z.min limit (Z.of_nat (List.length l)))) l).
Proof.
  intros H. unfold headSlice. rewrite Z.gtb_ltb.
  destruct (Z.ltb_spec (Z.of_nat (List.length l)) limit);
    rewrite (proj2 (Z.ltb_ge _ _)) by lia; do 3 f_equal; lia.
Qed.

Lemma headSlice_topk {A} (key : A -> Z) l limit :
  0 <= limit ->
  exists r rest,
    headSlice (sortSlice key l) limit = Some r /\
    Z.of_nat (List.length r) = Z.min limit (Z.of_nat (List.length l)) /\
    Sorted (fun x y => key x <= key y) r /\
    Permutation l (r ++ rest) /\
    (forall x y, In x r -> In y rest -> key x <= key y).
Proof.
  intros Hl. destruct (sortSlice_sorted key l) as [P S].
  set (s := sortSlice key l) in *.
  set (k := Z.to_nat (Z.min limit (Z.of_nat (List.length l)))).
  exists (firstn k s), (skipn k s).
  assert (SS : StronglySorted (fun x y => key x <= key y) (firstn k s ++ skipn k s)).
  { rewrite firstn_skipn. apply Sorted_StronglySorted; [intros ? ? ?; lia|exact S]. }
  apply StronglySorted_app_inv in SS as [S1 F].
  repeat split.
  - rewrite headSlice_nonneg by exact Hl. rewrite <- (Permutation_length P). reflexivity.
  - rewrite length_firstn, <- (Permutation_length P). unfold k. lia.
  - apply StronglySorted_Sorted, S1.
  - rewrite firstn_skipn. exact P.
  - exact F.
Qed.

Lemma Sorted_In_impl {A} (R R' : A -> A -> Prop) (P : A -> Prop) l :
  (forall x y, P x -> P y -> R x y -> R' x y) -> Forall P l ->
  Sorted R l -> Sorted R' l.
Proof.
  intros H FP S. induction S as [|a l S IH Hd]; constructor.
  - apply IH. inversion FP; auto.
  - inversion Hd as [|b l' Rab]; subst; constructor.
    inversion FP as [|? ? Pa FP']; subst. inversion FP'; subst. auto.
Qed.

(** GetLargestRequests: for a non-negative limit it returns min(limit, n) entries, in non-increasing order of response size, and no entry left out is larger than an entry returned. *)
Theorem largest_requests_top limit (log : HARLog) :
  0 <= limit ->
  exists r rest,
    GetLargestRequests log limit = Some r /\
    Z.of_nat (List.length r) = Z.min limit (Z.of_nat (List.length (Entries log))) /\
    Sorted (fun x y => Size (RContent (EResponse y)) <= Size (RContent (EResponse x))) r /\
    Permutation (Entries log) (r ++ rest) /\
    (forall x y, In x r -> In y rest ->
       Size (RContent (EResponse y)) <= Size (RContent (EResponse x))).
Proof.
  intros Hl.
  destruct (headSlice_topk (fun e => - Size (RContent (EResponse e))) (Entries log) limit Hl)
    as (r & rest & H1 & H2 & H3 & H4 & H5).
  exists r, rest. split; [exact H1|]. split; [exact H2|]. split.
  - refine (Sorted_In_impl _ _ (fun _ => True) _ _ _ H3); [intros; lia|].
    apply Forall_forall; auto.
  - split; [exact H4|]. intros x y Hx Hy. specialize (H5 x y Hx Hy). simpl in H5. lia.
Qed.

Lemma largest_requests_top_witness :
  let log := mkLog [] [sampleEntry "a" 0 1 200 1 0 0 0; sampleEntry "b" 0 1 200 1 0 0 0] in
  0 <= 1 /\
  exists r rest,
    GetLargestRequests log 1 = Some r /\
    Z.of_nat (List.length r) = Z.min 1 (Z.of_nat (List.length (Entries log))) /\
    Sorted (fun x y => Size (RContent (EResponse y)) <= Size (RContent (EResponse x))) r /\
    Permutation (Entries log) (r ++ rest) /\
    (forall x y, In x r -> In y rest ->
       Size (RContent (EResponse y)) <= Size (RContent (EResponse x))).
Proof. intros log. split; [lia|]. apply (largest_requests_top 1 log). lia. Defined.

Lemma qltb_spec (x y : Q) : qltb x y = true <-> (x < y)%Q.
Proof.
  unfold qltb. rewrite negb_true_iff. split; intros H.
  - apply Qnot_le_lt. intros C. apply Qle_bool_iff in C. congruence.
  - destruct (Qle_bool y x) eqn:E; [|reflexivity].
    apply Qle_bool_iff in E. exfalso. apply (Qlt_not_le x y); assumption.
Qed.

Lemma filter_length_le {A} (p q : A -> bool) l :
  (forall a, In a l -> p a = true -> q a = true) ->
  (List.length (filter p l) <= List.length (filter q l))%nat.
Proof.
  induction l as [|a l IH]; simpl; intros H; [lia|].
  destruct (p a) eqn:Ep.
  - rewrite (H a (or_introl eq_refl) Ep). simpl.
    apply le_n_S, IH. intros; apply H; auto.
  - destruct (q a); simpl; [apply le_S|]; apply IH; intros; apply H; auto.
Qed.

Lemma filter_length_lt {A} (p q : A -> bool) l z :
  (forall a, In a l -> p a = true -> q a = true) ->
  In z l -> p z = false -> q z = true ->
  (List.length (filter p l) < List.length (filter q l))%nat.
Proof.
  induction l as [|a l IH]; simpl; intros H Hz Pz Qz; [contradiction|].
  destruct Hz as [<-|Hz].
  - rewrite Pz, Qz. simpl. apply le_n_S, filter_length_le. intros; apply H; auto.
  - destruct (p a) eqn:Ep.
    + rewrite (H a (or_introl eq_refl) Ep). simpl.
      apply le_n_S, IH; auto; intros; apply H; auto.
    + destruct (q a); simpl; [apply le_S|]; apply IH; auto; intros; apply H; auto.
Qed.

Lemma slowRank_lt es x y :
  In x es -> In y es -> (EntryTime x < EntryTime y)%Q -> slowRank es y < slowRank es x.
Proof.
  intros Hx Hy Hlt. unfold slowRank. apply Nat2Z.inj_lt.
  apply (filter_length_lt _ _ es y); auto.
  - intros f _ Hf. apply qltb_spec in Hf. apply qltb_spec. eapply Qlt_trans; eauto.
  - destruct (qltb (EntryTime y) (EntryTime y)) eqn:E; [|reflexivity].
    apply qltb_spec in E. exfalso. apply (Qlt_irrefl _ E).
  - apply qltb_spec. exact Hlt.
Qed.

Lemma slowRank_le es x y :
  (EntryTime x <= EntryTime y)%Q -> slowRank es y <= slowRank es x.
Proof.
  intros Hle. unfold slowRank. apply Nat2Z.inj_le, filter_length_le.
  intros f _ Hf. apply qltb_spec in Hf. apply qltb_spec. eapply Qle_lt_trans; eauto.
Qed.

(** The rank key reproduces the Go comparison on the entries of the slice. *)
Lemma slowRank_less es x y :
  In x es -> In y es ->
  (slowRank es x <? slowRank es y) = qltb (EntryTime y) (EntryTime x).
Proof.
  intros Hx Hy. destruct (qltb (EntryTime y) (EntryTime x)) eqn:E.
  - apply qltb_spec in E. apply Z.ltb_lt. apply slowRank_lt; auto.
  - apply Z.ltb_ge. apply slowRank_le.
    apply Qnot_lt_le. intros C. apply qltb_spec in C. congruence.
Qed.

(** GetSlowestRequests: for a non-negative limit it returns min(limit, n) entries, in non-increasing order of elapsed time, and no entry left out is slower than an entry returned. *)
Theorem slowest_requests_top limit (log : HARLog) :
  0 <= limit ->
  exists r rest,
    GetSlowestRequests log limit = Some r /\
    Z.of_nat (List.length r) = Z.min limit (Z.of_nat (List.length (Entries log))) /\
    Sorted (fun x y => EntryTime y <= EntryTime x)%Q r /\
    Permutation (Entries log) (r ++ rest) /\
    (forall x y, In x r -> In y rest -> (EntryTime y <= EntryTime x)%Q).
Proof.
  intros Hl. set (es := Entries log).
  destruct (headSlice_topk (slowRank es) es limit Hl)
    as (r & rest & H1 & H2 & H3 & H4 & H5).
  assert (Inr : forall x, In x r -> In x es).
  { intros x Hx. apply (Permutation_in _ (Permutation_sym H4)), in_or_app; auto. }
  assert (Inrest : forall x, In x rest -> In x es).
  { intros x Hx. apply (Permutation_in _ (Permutation_sym H4)), in_or_app; auto. }
  assert (K : forall x y, In x es -> In y es -> slowRank es x <= slowRank es y ->
                          (EntryTime y <= EntryTime x)%Q).
  { intros x y Hx Hy Hr. apply Qnot_lt_le. intros C.
    pose proof (slowRank_lt es x y Hx Hy C). lia. }
  exists r, rest. split; [exact H1|]. split; [exact H2|]. split.
  - refine (Sorted_In_impl _ _ (fun x => In x es) _ _ _ H3); [intros; apply K; auto|].
    apply Forall_forall; auto.
  - split; [exact H4|]. intros x y Hx Hy. apply K; auto.
Qed.

Lemma slowest_requests_top_witness :
  let log := mkLog [] [sampleEntry "a" 0 3 200 1 0 0 0; sampleEntry "b" 0 7 200 1 0 0 0] in
  0 <= 1 /\
  exists r rest,
    GetSlowestRequests log 1 = Some r /\
    Z.of_nat (List.length r) = Z.min 1 (Z.of_nat (List.length (Entries log))) /\
    Sorted (fun x y => EntryTime y <= EntryTime x)%Q r /\
    Permutation (Entries log) (r ++ rest) /\
    (forall x y, In x r -> In y rest -> (EntryTime y <= EntryTime x)%Q).
Proof. intros log. split; [lia|]. apply (slowest_requests_top 1 log). lia. Defined.

Lemma count_fold (f : MState -> Z) (p : Entry -> bool) es :
  (forall st e, f (metricsStep st e) = if p e then f st + 1 else f st) ->
  forall st, f (fold_left metricsStep es st) = f st + Z.of_nat (List.length (filter p es)).
Proof.
  intros Hf. induction es as [|e es IH]; intros st; simpl; [lia|].
  rewrite IH, Hf. destruct (p e); simpl List.length; lia.
Qed.

Lemma errorRequests_fold es st :
  errorRequests (fold_left metricsStep es st)
  = errorRequests st
    + Z.of_nat (List.length (filter (fun e => Status (EResponse e) >=? 400) es)).
Proof. apply count_fold. intros st' e. reflexivity. Qed.

Lemma thirdParty_fold es st :
  thirdPartyRequests (fold_left metricsStep es st)
  = thirdPartyRequests st
    + Z.of_nat (List.length (filter (fun e => isThirdParty (URL (ERequest e))) es)).
Proof. apply count_fold. intros st' e. reflexivity. Qed.

Lemma cacheHits_fold es st :
  cacheHits (fold_left metricsStep es st)
  = cacheHits st
    + Z.of_nat (List.length (filter (fun e => match BeforeRequest (ECache e) with
                                             | Some _ => true | None => false end) es)).
Proof. apply count_fold. intros st' e. simpl. destruct (BeforeRequest (ECache e)); reflexivity. Qed.

(** CalculateMetrics counts as ErrorRequests exactly the entries GetErrorRequests returns. *)
Theorem error_requests_count (log : HARLog) :
  ErrorRequests (CalculateMetrics log) = Z.of_nat (List.length (GetErrorRequests log)).
Proof.
  unfold CalculateMetrics, GetErrorRequests.
  destruct (Entries log) as [|e es] eqn:E; [reflexivity|].
  cbn [ErrorRequests]. rewrite <- E, errorRequests_fold. reflexivity.
Qed.

Lemma filter_length_bound {A} (p : A -> bool) l :
  (List.length (filter p l) <= List.length l)%nat.
Proof. induction l as [|a l IH]; simpl; [lia|]. destruct (p a); simpl; lia. Qed.

(** CalculateMetrics: the error and third-party counts lie between 0 and TotalRequests, and the cache hit ratio lies between 0 and 100. *)
Theorem metrics_counts_bounded (log : HARLog) :
  let m := CalculateMetrics log in
  0 <= ErrorRequests m <= TotalRequests m /\
  0 <= ThirdPartyRequests m <= TotalRequests m /\
  (0 <= CacheHitRatio m <= 100)%Q.
Proof.
  unfold CalculateMetrics.
  destruct (Entries log) as [|e es] eqn:E.
  - cbn. split; [lia|]. split; [lia|]. split; discriminate.
  - cbn [ErrorRequests ThirdPartyRequests TotalRequests CacheHitRatio].
    rewrite <- E, errorRequests_fold, thirdParty_fold, cacheHits_fold. cbn [mstate0 errorRequests thirdPartyRequests cacheHits].
    pose proof (filter_length_bound (fun e => Status (EResponse e) >=? 400) (Entries log)).
    pose proof (filter_length_bound (fun e => isThirdParty (URL (ERequest e))) (Entries log)).
    pose proof (filter_length_bound (fun e => match BeforeRequest (ECache e) with
                                              | Some _ => true | None => false end) (Entries log)) as Hc.
    split; [lia|]. split; [lia|].
    set (c := List.length (filter _ (Entries log))) in *.
    set (n := List.length (Entries log)) in *.
    assert (Hn : (0 < n)%nat) by (unfold n; rewrite E; simpl; lia).
    assert (Hnq : (0 < inject_Z (Z.of_nat n))%Q).
    { unfold Qlt; simpl. lia. }
    split.
    + apply Qmult_le_0_compat; [|discriminate].
      apply Qle_shift_div_l; [exact Hnq|]. rewrite Qmult_0_l.
      unfold Qle; simpl. lia.
    + rewrite <- (Qmult_1_l 100) at 2. apply Qmult_le_compat_r; [|discriminate].
      apply Qle_shift_div_r; [exact Hnq|]. rewrite Qmult_1_l.
      unfold Qle; simpl. lia.
Qed.

Lemma pageBounds_fold es : forall mn mx,
  let '(mn', mx') := fold_left pageBoundsStep es (mn, mx) in
  mn' <= mn /\ mx <= mx' /\
  forall e, In e es -> mn' <= StartedDateTime e /\
                       StartedDateTime e + durationMs (EntryTime e) <= mx'.
Proof.
  induction es as [|e es IH]; intros mn mx; simpl.
  - split; [lia|]. split; [lia|]. intros _ [].
  - set (mn1 := if StartedDateTime e <? mn then StartedDateTime e else mn).
    set (mx1 := if StartedDateTime e + durationMs (EntryTime e) >? mx
                then StartedDateTime e + durationMs (EntryTime e) else mx).
    specialize (IH mn1 mx1).
    destruct (fold_left pageBoundsStep es (mn1, mx1)) as [mn' mx'].
    destruct IH as (H1 & H2 & H3).
    assert (mn1 <= mn /\ mn1 <= StartedDateTime e) as [A1 A2]
      by (unfold mn1; destruct (Z.ltb_spec (StartedDateTime e) mn); lia).
    assert (mx <= mx1 /\ StartedDateTime e + durationMs (EntryTime e) <= mx1) as [B1 B2]
      by (unfold mx1; rewrite Z.gtb_ltb;
          destruct (Z.ltb_spec mx (StartedDateTime e + durationMs (EntryTime e))); lia).
    split; [lia|]. split; [lia|].
    intros f [<-|Hf]; [lia|]. apply H3, Hf.
Qed.


Lemma durationToMs_mono a b : a <= b -> (durationToMs a <= durationToMs b)%Q.
Proof.
  intros H. unfold durationToMs. apply Qmult_le_compat_r; [|discriminate].
  unfold Qdiv. apply Qmult_le_compat_r; [|discriminate].
  rewrite <- Zle_Qle. exact H.
Qed.

(** calculateEstimatedPageLoadTime is at least the duration of every entry, as the code converts it ([time.Duration(entry.Time) * time.Millisecond], in ms). *)
Theorem page_load_covers_entry (log : HARLog) e :
  In e (Entries log) ->
  (durationToMs (durationMs (EntryTime e)) <= calculateEstimatedPageLoadTime log)%Q.
Proof.
  intros Hin. unfold calculateEstimatedPageLoadTime.
  destruct (Entries log) as [|e0 es] eqn:E; [contradiction|].
  pose proof (pageBounds_fold (e0 :: es) (StartedDateTime e0) zeroTime) as H.
  destruct (fold_left pageBoundsStep (e0 :: es) (StartedDateTime e0, zeroTime)) as [mn mx].
  destruct H as (_ & _ & H). destruct (H e Hin) as [H1 H2].
  apply durationToMs_mono. unfold timeSub.
  pose proof (wrap64_range (goInt (EntryTime e) * 1000000)). unfold durationMs in *. lia.
Qed.

Lemma page_load_covers_entry_witness :
  let log := mkLog [] [sampleEntry "a" 0 5 200 1 0 0 0; sampleEntry "b" 2000000 7 200 1 0 0 0] in
  In (sampleEntry "b" 2000000 7 200 1 0 0 0) (Entries log) /\
  (durationToMs (durationMs (EntryTime (sampleEntry "b" 2000000 7 200 1 0 0 0)))
   <= calculateEstimatedPageLoadTime log)%Q.
Proof.
  intros log. assert (H : In (sampleEntry "b" 2000000 7 200 1 0 0 0) (Entries log))
    by (simpl; right; left; reflexivity).
  split; [exact H|]. apply (page_load_covers_entry log _ H).
Defined.

Lemma mapGet_mapSet m k v k' :
  mapGet (mapSet m k v) k' = if String.eqb k k' then v else mapGet m k'.
Proof.
  induction m as [|[k0 v0] m IH]; simpl.
  - destruct (String.eqb k k'); reflexivity.
  - destruct (String.eqb k0 k) eqn:E0; simpl.
    + apply String.eqb_eq in E0. subst k0.
      destruct (String.eqb k k'); reflexivity.
    + rewrite IH. destruct (String.eqb k0 k') eqn:E1; [|reflexivity].
      apply String.eqb_eq in E1. subst k0.
      destruct (String.eqb k k') eqn:E2; [|reflexivity].
      apply String.eqb_eq in E2. subst k'. rewrite String.eqb_refl in E0. discriminate.
Qed.

Lemma resources_fold_get es : forall m k,
  mapGet (fold_left resourcesStep es m) k
  = mapGet m k ++ filter (fun e => String.eqb (resourceType e) k) es.
Proof.
  induction es as [|e es IH]; intros m k; simpl.
  - rewrite app_nil_r. reflexivity.
  - rewrite IH. unfold resourcesStep. rewrite mapGet_mapSet.
    destruct (String.eqb (resourceType e) k) eqn:E.
    + apply String.eqb_eq in E. subst k. rewrite <- app_assoc. reflexivity.
    + reflexivity.
Qed.

(** GetResourcesByType: the bucket of a key holds exactly the entries whose simplified content type is that key, in their original order (a missing key reads as empty). *)
Theorem resources_by_type_lookup (log : HARLog) k :
  mapGet (GetResourcesByType log) k
  = filter (fun e => String.eqb (resourceType e) k) (Entries log).
Proof. unfold GetResourcesByType. rewrite resources_fold_get. reflexivity. Qed.

Lemma mapSet_keys m k v k' :
  In k' (map fst (mapSet m k v)) <-> k' = k \/ In k' (map fst m).
Proof.
  induction m as [|[k0 v0] m IH]; simpl.
  - intuition congruence.
  - destruct (String.eqb k0 k) eqn:E; simpl.
    + apply String.eqb_eq in E. subst k0. intuition congruence.
    + rewrite IH. intuition congruence.
Qed.

Lemma mapSet_NoDup m k v : NoDup (map fst m) -> NoDup (map fst (mapSet m k v)).
Proof.
  induction m as [|[k0 v0] m IH]; simpl; intros H.
  - constructor; [intros []|constructor].
  - inversion H as [|? ? Hn Hd]; subst.
    destruct (String.eqb k0 k) eqn:E; simpl.
    + apply String.eqb_eq in E. subst k0. constructor; assumption.
    + constructor; [|apply IH, Hd].
      rewrite mapSet_keys. intros [C|C]; [|contradiction].
      subst k0. rewrite String.eqb_refl in E. discriminate.
Qed.

Lemma mapSet_nonempty m k v :
  v <> [] -> Forall (fun kv => snd kv <> []) m -> Forall (fun kv => snd kv <> []) (mapSet m k v).
Proof.
  intros Hv. induction m as [|[k0 v0] m IH]; simpl; intros H.
  - constructor; [exact Hv|constructor].
  - inversion H as [|? ? H0 H1]; subst.
    destruct (String.eqb k0 k); constructor; auto.
Qed.

Lemma mapSet_concat m k e :
  Permutation (List.concat (map snd (mapSet m k (mapGet m k ++ [e]))))
              (List.concat (map snd m) ++ [e]).
Proof.
  induction m as [|[k0 v0] m IH]; simpl.
  - reflexivity.
  - destruct (String.eqb k0 k); simpl.
    + rewrite <- !app_assoc. apply Permutation_app_head.
      apply Permutation_app_comm.
    + rewrite <- app_assoc. apply Permutation_app_head, IH.
Qed.

Lemma resources_fold_inv es : forall m,
  NoDup (map fst m) -> Forall (fun kv => snd kv <> []) m ->
  let m' := fold_left resourcesStep es m in
  Permutation (List.concat (map snd m) ++ es) (List.concat (map snd m')) /\
  NoDup (map fst m') /\ Forall (fun kv => snd kv <> []) m'.
Proof.
  induction es as [|e es IH]; intros m Hd Hne; simpl.
  - rewrite app_nil_r. split; [reflexivity|]. split; assumption.
  - destruct (IH (resourcesStep m e)) as (P & D & N).
    + apply mapSet_NoDup, Hd.
    + apply mapSet_nonempty; [|exact Hne].
      intros C. destruct (mapGet m (resourceType e)); discriminate.
    + split; [|split; assumption].
      eapply Permutation_trans; [|exact P].
      unfold resourcesStep. rewrite mapSet_concat, <- app_assoc. reflexivity.
Qed.

(** GetResourcesByType: the buckets together are a permutation of the entries, no key occurs twice and no bucket is empty. *)
Theorem resources_by_type_partition (log : HARLog) :
  let m := GetResourcesByType log in
  Permutation (Entries log) (List.concat (map snd m)) /\
  NoDup (map fst m) /\ Forall (fun kv => snd kv <> []) m.
Proof.
  unfold GetResourcesByType.
  destruct (resources_fold_inv (Entries log) [] ltac:(constructor) ltac:(constructor))
    as (P & D & N).
  split; [exact P|]. split; assumption.
Qed.

Lemma resourceType_cases e :
  In (resourceType e) resourceCategories \/
  (resourceType e <> ""%string /\
   Forall (fun w => contains (resourceType e) w = false) resourceCategories).
Proof.
  unfold resourceType.
  set (ct := if String.eqb (MimeType (RContent (EResponse e))) "" then "unknown"%string
             else MimeType (RContent (EResponse e))).
  assert (Hct : ct <> ""%string).
  { unfold ct. destruct (String.eqb (MimeType (RContent (EResponse e))) "") eqn:E;
      [discriminate|]. intros C. rewrite C in E. discriminate. }
  unfold resourceCategories.
  destruct (contains ct "javascript") eqn:E1; [left; simpl; tauto|].
  destruct (contains ct "css") eqn:E2; [left; simpl; tauto|].
  destruct (contains ct "image") eqn:E3; [left; simpl; tauto|].
  destruct (contains ct "html") eqn:E4; [left; simpl; tauto|].
  destruct (contains ct "json") eqn:E5; [left; simpl; tauto|].
  destruct (contains ct "font") eqn:E6; [left; simpl; tauto|].
  right. split; [exact Hct|]. repeat constructor; assumption.
Qed.

(** GetResourcesByType: a key with entries is one of the six categories, or a non-empty content type that contains none of the six category words. *)
Theorem resources_by_type_keys (log : HARLog) k :
  mapGet (GetResourcesByType log) k <> [] ->
  In k resourceCategories \/
  (k <> ""%string /\ Forall (fun w => contains k w = false) resourceCategories).
Proof.
  rewrite resources_by_type_lookup. intros H.
  destruct (filter (fun e => String.eqb (resourceType e) k) (Entries log)) as [|e r] eqn:F;
    [congruence|].
  assert (He : In e (filter (fun e => String.eqb (resourceType e) k) (Entries log)))
    by (rewrite F; left; reflexivity).
  apply filter_In in He as [_ He]. apply String.eqb_eq in He. subst k.
  apply resourceType_cases.
Qed.

Lemma resources_by_type_keys_witness :
  let e := mkEntry 0 5 (mkRequest "GET" "https://a.test/v") (mkResponse 200 (mkContent 10 "video/mp4"))
             (mkCache None) (mkTimings 0 0 0 0 0 0 0) in
  let log := mkLog [] [e] in
  mapGet (GetResourcesByType log) "video/mp4" <> [] /\
  (In "video/mp4"%string resourceCategories \/
   ("video/mp4"%string <> ""%string /\
    Forall (fun w => contains "video/mp4" w = false) resourceCategories)).
Proof.
  intros e log. assert (H : mapGet (GetResourcesByType log) "video/mp4" <> []).
  { vm_compute. intros C. discriminate C. }
  split; [exact H|]. apply (resources_by_type_keys log _ H).
Defined.

(** ** Case-insensitive matching of the TUI filter *)

Lemma substring_length s : forall j n,
  String.length (substring j n s) = Nat.min n (String.length s - j).
Proof.
  induction s as [|c s IH]; intros [|j] [|n]; simpl; try reflexivity.
  - rewrite IH. simpl. lia.
  - rewrite IH. reflexivity.
  - rewrite IH. reflexivity.
Qed.

Lemma substring_zero s j : substring j 0 s = EmptyString.
Proof.
  revert j. induction s as [|c s IH]; intros [|j]; simpl; auto.
Qed.

Lemma substring_full s : substring 0 (String.length s) s = s.
Proof. induction s as [|c s IH]; simpl; [reflexivity|]. rewrite IH. reflexivity. Qed.

Lemma lowerString_cons c s :
  TUI.lowerString (String c s) = String (TUI.toLower c) (TUI.lowerString s).
Proof. reflexivity. Qed.

Lemma lowerString_length s : String.length (TUI.lowerString s) = String.length s.
Proof.
  induction s as [|c s IH]; [reflexivity|].
  rewrite lowerString_cons. simpl. rewrite IH. reflexivity.
Qed.

Lemma lowerString_substring s : forall j n,
  TUI.lowerString (substring j n s) = substring j n (TUI.lowerString s).
Proof.
  induction s as [|c s IH]; intros [|j] [|n]; try reflexivity.
  - simpl substring. rewrite !lowerString_cons. simpl. rewrite IH. reflexivity.
  - rewrite lowerString_cons. simpl substring. apply IH.
  - rewrite lowerString_cons. simpl substring. apply IH.
Qed.

Lemma equalLoop_lower a : forall b,
  String.length a = String.length b ->
  TUI.equalLoop a b = String.eqb (TUI.lowerString a) (TUI.lowerString b).
Proof.
  induction a as [|x a IH]; intros [|y b]; intros H; simpl in H; try discriminate; [reflexivity|].
  rewrite !lowerString_cons. cbn [TUI.equalLoop String.eqb]. rewrite IH by lia. reflexivity.
Qed.

Lemma equalIgnoreCase_lower a b :
  TUI.equalIgnoreCase a b = String.eqb (TUI.lowerString a) (TUI.lowerString b).
Proof.
  unfold TUI.equalIgnoreCase.
  destruct (Nat.eqb_spec (String.length a) (String.length b)) as [E|E]; simpl.
  - apply equalLoop_lower, E.
  - symmetry. apply String.eqb_neq. intros C.
    apply E. rewrite <- (lowerString_length a), <- (lowerString_length b), C. reflexivity.
Qed.

Lemma findLoop_spec fuel s sub : forall i,
  TUI.findLoop fuel s sub i = true <->
  exists j, (i <= j < i + fuel)%nat /\
            TUI.equalIgnoreCase (substring j (String.length sub) s) sub = true.
Proof.
  induction fuel as [|f IH]; intros i; simpl.
  - split; [discriminate|]. intros (j & Hj & _). lia.
  - destruct (TUI.equalIgnoreCase (substring i (String.length sub) s) sub) eqn:E.
    + split; [intros _; exists i; split; [lia|exact E]|reflexivity].
    + rewrite IH. split.
      * intros (j & Hj & Ej). exists j. split; [lia|exact Ej].
      * intros (j & Hj & Ej). exists j. split; [|exact Ej].
        destruct (Nat.eq_dec j i) as [->|]; [congruence|lia].
Qed.

(** [strings.Contains] finds its argument at some position. *)
Lemma contains_spec s sub :
  contains s sub = true <-> exists j, substring j (String.length sub) s = sub.
Proof.
  induction s as [|c s IH].
  - cbn [contains]. rewrite orb_false_r, prefix_correct. split.
    + intros H. exists 0%nat. exact H.
    + intros [j Hj]. destruct j; [exact Hj|]. destruct (String.length sub); exact Hj.
  - cbn [contains]. rewrite orb_true_iff, prefix_correct, IH. split.
    + intros [H|[j Hj]]; [exists 0%nat; exact H|exists (S j); exact Hj].
    + intros [[|j] Hj]; [left; exact Hj|right; exists j; exact Hj].
Qed.

Lemma tui_contains_spec s sub :
  TUI.contains s sub = true <->
  exists j, substring j (String.length sub) (TUI.lowerString s) = TUI.lowerString sub.
Proof.
  unfold TUI.contains.
  assert (Hlen : forall j, substring j (String.length sub) (TUI.lowerString s)
                           = TUI.lowerString sub ->
                 (String.length sub = 0 \/ j + String.length sub <= String.length s)%nat).
  { intros j Hj. apply (f_equal String.length) in Hj.
    rewrite substring_length, !lowerString_length in Hj. lia. }
  rewrite andb_true_iff, !orb_true_iff, Nat.leb_le, Nat.eqb_eq, String.eqb_eq.
  split.
  - intros [Hle [[E|E]|F]].
    + subst sub. exists 0%nat. rewrite <- (lowerString_length s). apply substring_full.
    + exists 0%nat. rewrite E, substring_zero.
      destruct sub; [reflexivity|discriminate].
    + unfold TUI.findSubstring in F. apply findLoop_spec in F as (j & _ & Ej).
      exists j. rewrite equalIgnoreCase_lower, String.eqb_eq, lowerString_substring in Ej.
      exact Ej.
  - intros [j Hj]. destruct (Hlen j Hj) as [Z0|Hb].
    + split; [lia|]. left; right; exact Z0.
    + split; [lia|]. right. unfold TUI.findSubstring. apply findLoop_spec.
      exists j. split; [lia|].
      rewrite equalIgnoreCase_lower, String.eqb_eq, lowerString_substring. exact Hj.
Qed.

(** The TUI filter test [contains] is [strings.Contains] on the strings lowered byte by byte with [toLower]. *)
Theorem tui_contains_lowered s sub :
  TUI.contains s sub = contains (TUI.lowerString s) (TUI.lowerString sub).
Proof.
  apply eq_true_iff_eq. rewrite tui_contains_spec, contains_spec, lowerString_length.
  reflexivity.
Qed.

(** An exact (case-sensitive) substring match is also a match of the TUI filter test. *)
Theorem tui_contains_of_exact s sub :
  contains s sub = true -> TUI.contains s sub = true.
Proof.
  rewrite contains_spec, tui_contains_spec. intros [j Hj].
  exists j. rewrite <- lowerString_substring, Hj. reflexivity.
Qed.

Lemma tui_contains_of_exact_witness :
  contains "https://cdn.test/App.js" "App" = true /\
  TUI.contains "https://cdn.test/App.js" "App" = true.
Proof.
  assert (H : contains "https://cdn.test/App.js" "App" = true) by reflexivity.
  split; [exact H|]. apply (tui_contains_of_exact _ _ H).
Defined.

(** ** Truncation and the entry table *)

Lemma length_append (s t : string) :
  String.length (s ++ t) = (String.length s + String.length t)%nat.
Proof. induction s as [|c s IH]; simpl; [reflexivity|]. rewrite IH. reflexivity. Qed.

(** truncateValue with maxLen >= 3 returns a string of length min(len(value), maxLen), which a second truncation leaves unchanged. *)
Theorem truncate_value_fits value maxLen :
  3 <= maxLen ->
  exists r, TUI.truncateValue value maxLen = Some r /\
    Z.of_nat (String.length r) = Z.min (Z.of_nat (String.length value)) maxLen /\
    TUI.truncateValue r maxLen = Some r.
Proof.
  intros H. unfold TUI.truncateValue.
  destruct (Z.leb_spec (Z.of_nat (String.length value)) maxLen) as [L|L].
  - exists value. split; [reflexivity|]. split; [lia|].
    rewrite (proj2 (Z.leb_le _ _) L). reflexivity.
  - rewrite (proj2 (Z.ltb_ge _ _)) by lia.
    eexists. split; [reflexivity|].
    assert (E : Z.of_nat (String.length (substring 0 (Z.to_nat (maxLen - 3)) value ++ "..."))
                = maxLen).
    { rewrite length_append, substring_length. simpl String.length. lia. }
    split; [lia|]. rewrite E, Z.leb_refl. reflexivity.
Qed.

Lemma truncate_value_fits_witness :
  3 <= 6 /\
  exists r, TUI.truncateValue "abcdefghij" 6 = Some r /\
    Z.of_nat (String.length r) = Z.min (Z.of_nat (String.length "abcdefghij")) 6 /\
    TUI.truncateValue r 6 = Some r.
Proof. split; [lia|]. apply truncate_value_fits. lia. Defined.

Lemma truncateURL_60 url :
  exists u, TUI.truncateURL url 60 = Some u /\ (String.length u <= 60)%nat.
Proof.
  unfold TUI.truncateURL.
  destruct (Z.leb_spec (Z.of_nat (String.length url)) 60) as [L|L].
  - exists url. split; [reflexivity|lia].
  - eexists. split; [reflexivity|].
    rewrite length_append, substring_length. simpl String.length. lia.
Qed.

Lemma typeCell_length e : (String.length (TUI.typeCell e) <= 15)%nat.
Proof.
  unfold TUI.typeCell.
  set (ct := if String.eqb _ _ then _ else _).
  destruct (Nat.ltb_spec 15 (String.length ct)) as [L|L]; [|exact L].
  rewrite length_append, substring_length. simpl String.length. lia.
Qed.

Lemma tableRow_some fmt1f (entry : Entry) :
  exists row, TUI.tableRow fmt1f entry = Some row /\
    List.length row = 6%nat /\
    (String.length (nth 2 row ""%string) <= 60)%nat /\
    (String.length (nth 5 row ""%string) <= 15)%nat.
Proof.
  destruct (truncateURL_60 (URL (ERequest entry))) as (u & Hu & Lu).
  unfold TUI.tableRow. rewrite Hu. eexists. split; [reflexivity|].
  split; [reflexivity|]. split; [exact Lu|apply typeCell_length].
Qed.

(** updateTableRows never panics: every entry gets a row of six cells, whose URL cell has at most 60 bytes and whose content-type cell has at most 15 bytes. *)
Theorem table_rows_cells fmt1f (entries : list Entry) :
  exists rows, TUI.tableRows fmt1f entries = Some rows /\
    List.length rows = List.length entries /\
    Forall (fun row => List.length row = 6%nat /\
                       (String.length (nth 2 row ""%string) <= 60)%nat /\
                       (String.length (nth 5 row ""%string) <= 15)%nat) rows.
Proof.
  induction entries as [|e es IH].
  - exists []. split; [reflexivity|]. split; [reflexivity|constructor].
  - destruct IH as (rs & H & L & F).
    destruct (tableRow_some fmt1f e) as (r & Hr & P).
    exists (r :: rs). simpl. rewrite Hr, H. split; [reflexivity|].
    split; [simpl; lia|]. constructor; assumption.
Qed.

Lemma matchesFilter_empty e : TUI.matchesFilter e "" = true.
Proof.
  unfold TUI.matchesFilter, TUI.contains. simpl String.length.
  rewrite Nat.leb_refl || idtac. cbn [Nat.leb Nat.eqb andb].
  rewrite !orb_true_r. reflexivity.
Qed.

Lemma filter_all {A} (p : A -> bool) l : (forall x, p x = true) -> filter p l = l.
Proof. intros H. induction l as [|a l IH]; simpl; [reflexivity|]. rewrite H, IH. reflexivity. Qed.

Lemma filterEntries_shape fmt1f m f log :
  TUI.currentLog m = Some log ->
  TUI.filterEntries fmt1f m f
  = TUI.updateTableRows fmt1f
      (TUI.mkModel (TUI.harFiles m) (TUI.currentFile m)
         (filter (fun e => TUI.matchesFilter e f) (Entries log)) (TUI.rows m)).
Proof.
  intros H. unfold TUI.filterEntries. rewrite H.
  destruct (String.eqb_spec f "") as [->|]; [|reflexivity].
  rewrite filter_all by apply matchesFilter_empty. reflexivity.
Qed.

(** filterEntries keeps exactly the entries of the current file that match the filter; the empty filter, handled apart, keeps all of them, as the matching would. *)
Theorem filter_entries_matching fmt1f m f log :
  TUI.currentLog m = Some log ->
  exists m', TUI.filterEntries fmt1f m f = Some m' /\
    TUI.mentries m' = filter (fun e => TUI.matchesFilter e f) (Entries log).
Proof.
  intros H. rewrite (filterEntries_shape fmt1f m f log H).
  unfold TUI.updateTableRows. cbn [TUI.mentries].
  destruct (filter _ (Entries log)) as [|e es] eqn:F.
  - eexists. split; [reflexivity|]. reflexivity.
  - destruct (table_rows_cells fmt1f (e :: es)) as (rs & Hr & _).
    rewrite Hr. eexists. split; [reflexivity|]. reflexivity.
Qed.

(** filterEntries rebuilds the table rows from the matching entries when there are some; when none match, updateTableRows returns early and the table keeps its previous rows. *)
Theorem filter_entries_rows fmt1f m f log :
  TUI.currentLog m = Some log ->
  exists m', TUI.filterEntries fmt1f m f = Some m' /\
    match filter (fun e => TUI.matchesFilter e f) (Entries log) with
    | [] => TUI.rows m' = TUI.rows m
    | shown => TUI.tableRows fmt1f shown = Some (TUI.rows m')
    end.
Proof.
  intros H. rewrite (filterEntries_shape fmt1f m f log H).
  unfold TUI.updateTableRows. cbn [TUI.mentries].
  destruct (filter _ (Entries log)) as [|e es] eqn:F.
  - eexists. split; [reflexivity|]. reflexivity.
  - destruct (table_rows_cells fmt1f (e :: es)) as (rs & Hr & _).
    rewrite Hr. eexists. split; [reflexivity|]. reflexivity.
Qed.

Lemma filter_entries_rows_witness :
  TUI.currentLog sampleModel = Some (mkLog [] [sampleEntry "https://a.test/app.js" 0 5 200 1 0 0 0]) /\
  exists m', TUI.filterEntries (fun _ => "5.0"%string) sampleModel "POST" = Some m' /\
    match filter (fun e => TUI.matchesFilter e "POST")
                 (Entries (mkLog [] [sampleEntry "https://a.test/app.js" 0 5 200 1 0 0 0])) with
    | [] => TUI.rows m' = TUI.rows sampleModel
    | shown => TUI.tableRows (fun _ => "5.0"%string) shown = Some (TUI.rows m')
    end.
Proof.
  assert (H : TUI.currentLog sampleModel
              = Some (mkLog [] [sampleEntry "https://a.test/app.js" 0 5 200 1 0 0 0]))
    by reflexivity.
  split; [exact H|]. apply (filter_entries_rows _ _ _ _ H).
Defined.

Lemma filter_entries_matching_witness :
  TUI.currentLog sampleModel = Some (mkLog [] [sampleEntry "https://a.test/app.js" 0 5 200 1 0 0 0]) /\
  exists m', TUI.filterEntries (fun _ => "5.0"%string) sampleModel "APP.JS" = Some m' /\
    TUI.mentries m' = filter (fun e => TUI.matchesFilter e "APP.JS")
                        (Entries (mkLog [] [sampleEntry "https://a.test/app.js" 0 5 200 1 0 0 0])).
Proof.
  assert (H : TUI.currentLog sampleModel
              = Some (mkLog [] [sampleEntry "https://a.test/app.js" 0 5 200 1 0 0 0]))
    by reflexivity.
  split; [exact H|]. apply (filter_entries_matching _ _ _ _ H).
Defined.

(** ** Waterfall window and the "more requests" line *)

Lemma bounds_fold evs : forall s e,
  let '(s', e') := fold_left boundsStep evs (s, e) in
  s' <= s /\ e <= e' /\
  Forall (fun ev => s' <= TE.StartTime ev /\
                    TE.StartTime ev + durationMs (TE.Duration ev) <= e') evs.
Proof.
  induction evs as [|ev evs IH]; intros s e; simpl.
  - split; [lia|]. split; [lia|constructor].
  - set (s1 := if TE.StartTime ev <? s then TE.StartTime ev else s).
    set (e1 := if TE.StartTime ev + durationMs (TE.Duration ev) >? e
               then TE.StartTime ev + durationMs (TE.Duration ev) else e).
    specialize (IH s1 e1).
    destruct (fold_left boundsStep evs (s1, e1)) as [s' e'].
    destruct IH as (H1 & H2 & H3).
    assert (s1 <= s /\ s1 <= TE.StartTime ev) as [A1 A2]
      by (unfold s1; destruct (Z.ltb_spec (TE.StartTime ev) s); lia).
    assert (e <= e1 /\ TE.StartTime ev + durationMs (TE.Duration ev) <= e1) as [B1 B2]
      by (unfold e1; rewrite Z.gtb_ltb;
          destruct (Z.ltb_spec e (TE.StartTime ev + durationMs (TE.Duration ev))); lia).
    split; [lia|]. split; [lia|]. constructor; [lia|exact H3].
Qed.

(** RenderWaterfall: the time window [startTime, endTime] of the renderer contains the start and the end of every event. *)
Theorem waterfall_window_covers tr timeline :
  match RenderWaterfall tr timeline with
  | None => True
  | Some (tr', _, _) =>
      Forall (fun ev => rstartTime tr' <= TE.StartTime ev /\
                        TE.StartTime ev + durationMs (TE.Duration ev) <= rendTime tr') timeline
  end.
Proof.
  destruct timeline as [|ev0 rest]; [exact I|].
  unfold RenderWaterfall, waterfallBounds.
  pose proof (bounds_fold (ev0 :: rest) (TE.StartTime ev0) (TE.StartTime ev0)) as H.
  destruct (fold_left boundsStep (ev0 :: rest) (TE.StartTime ev0, TE.StartTime ev0)) as [s e].
  destruct H as (_ & _ & H). exact H.
Qed.





(** RenderWaterfall with height >= 8: the bars drawn plus the count of the "... and %d more requests" line equal the number of events. *)
Theorem waterfall_more_accounts tr timeline tr' cw bars :
  8 <= rheight tr ->
  RenderWaterfall tr timeline = Some (tr', cw, bars) ->
  Z.of_nat (List.length bars)
  + match moreRequests tr timeline with Some k => k | None => 0 end
  = Z.of_nat (List.length timeline).
Proof.
  intros Hh H. destruct timeline as [|ev0 rest]; [discriminate|].
  unfold RenderWaterfall in H.
  destruct (waterfallBounds ev0 (ev0 :: rest)) as [st en].
  injection H as _ _ <-. rewrite length_map, length_firstn.
  change (Z.pos (Pos.of_succ_nat (List.length rest))) with (Z.of_nat (List.length (ev0 :: rest))).
  set (n := Z.of_nat (List.length (ev0 :: rest))).
  unfold moreRequests. fold n. rewrite Z.gtb_ltb.
  destruct (Z.ltb_spec (rheight tr - 8) n); unfold n in *; lia.
Qed.

(** RenderWaterfall with height < 8: no bar is drawn and the "more requests" line reports 8 - height requests more than there are events. *)
Theorem waterfall_more_phantom tr timeline tr' cw bars :
  rheight tr < 8 ->
  RenderWaterfall tr timeline = Some (tr', cw, bars) ->
  bars = [] /\
  moreRequests tr timeline = Some (Z.of_nat (List.length timeline) + (8 - rheight tr)).
Proof.
  intros Hh H. destruct timeline as [|ev0 rest]; [discriminate|].
  unfold RenderWaterfall in H.
  destruct (waterfallBounds ev0 (ev0 :: rest)) as [st en].
  injection H as _ _ <-.
  change (Z.pos (Pos.of_succ_nat (List.length rest))) with (Z.of_nat (List.length (ev0 :: rest))).
  set (n := Z.of_nat (List.length (ev0 :: rest))).
  unfold moreRequests. fold n. rewrite Z.gtb_ltb.
  destruct (Z.ltb_spec (rheight tr - 8) n); [|unfold n in *; lia].
  split; [|f_equal; lia].
  replace (Z.to_nat (rheight tr - 8)) with 0%nat by lia. reflexivity.
Qed.


Lemma waterfall_more_accounts_witness :
  let tl := [sampleEvent 0 0 5; sampleEvent 1 1000000 5] in
  match RenderWaterfall sampleRenderer tl with
  | Some (tr', cw, bars) =>
      8 <= rheight sampleRenderer /\
      Z.of_nat (List.length bars)
      + match moreRequests sampleRenderer tl with Some k => k | None => 0 end
      = Z.of_nat (List.length tl)
  | None => False
  end.
Proof.
  intros tl. destruct (RenderWaterfall sampleRenderer tl) as [[[tr' cw] bars]|] eqn:E.
  - assert (H : 8 <= rheight sampleRenderer) by (simpl; lia).
    split; [exact H|]. apply (waterfall_more_accounts sampleRenderer tl tr' cw bars H E).
  - vm_compute in E. discriminate E.
Defined.

Lemma waterfall_more_phantom_witness :
  let tr := mkRenderer 55 5 0 0 0 in
  let tl := [sampleEvent 0 0 5; sampleEvent 1 1000000 5] in
  match RenderWaterfall tr tl with
  | Some (tr', cw, bars) =>
      rheight tr < 8 /\ bars = [] /\
      moreRequests tr tl = Some (Z.of_nat (List.length tl) + (8 - rheight tr))
  | None => False
  end.
Proof.
  intros tr tl. destruct (RenderWaterfall tr tl) as [[[tr' cw] bars]|] eqn:E.
  - assert (H : rheight tr < 8) by (simpl; lia).
    split; [exact H|]. apply (waterfall_more_phantom tr tl tr' cw bars H E).
  - vm_compute in E. discriminate E.
Defined.

(** ** Comparator summary *)

Lemma length_imap_from {A B} (f : nat -> A -> B) l : forall k,
  List.length (imap_from f k l) = List.length l.
Proof. induction l as [|a l IH]; intros k; simpl; [reflexivity|]. rewrite IH. reflexivity. Qed.

Lemma tally_total i n d : forall b w u,
  let '(b', w', u') := tallyColumns i n d (b, w, u) in
  b' + w' + u' = b + w + u + Z.of_nat n.
Proof.
  revert i. induction n as [|n IH]; intros i b w u; simpl; [lia|].
  destruct (verdict _ _).
  - specialize (IH (S i) (b + 1) w u).
    destruct (tallyColumns (S i) n d (b + 1, w, u)) as [[b' w'] u']. lia.
  - specialize (IH (S i) b (w + 1) u).
    destruct (tallyColumns (S i) n d (b, w + 1, u)) as [[b' w'] u']. lia.
  - specialize (IH (S i) b w (u + 1)).
    destruct (tallyColumns (S i) n d (b, w, u + 1)) as [[b' w'] u']. lia.
Qed.

Lemma summary_fold_total n diffs : forall b w u,
  Forall (fun d => List.length (Improvements d) = n) diffs ->
  let '(b', w', u') :=
    fold_left (fun acc d => tallyColumns 1 (List.length (Improvements d) - 1) d acc)
      diffs (b, w, u) in
  b' + w' + u' = b + w + u + Z.of_nat (List.length diffs) * Z.of_nat (n - 1).
Proof.
  induction diffs as [|d diffs IH]; intros b w u F; cbn [fold_left]; [simpl; lia|].
  inversion F as [|? ? Hd F']; subst.
  pose proof (tally_total 1 (List.length (Improvements d) - 1) d b w u) as T.
  destruct (tallyColumns 1 _ d (b, w, u)) as [[b1 w1] u1].
  specialize (IH b1 w1 u1 F').
  destruct (fold_left _ diffs (b1, w1, u1)) as [[b' w'] u'].
  change (List.length (d :: diffs)) with (S (List.length diffs)).
  rewrite Nat2Z.inj_succ. nia.
Qed.

(** Compare with at least two metrics: the summary counts TotalMetrics = 10 * (n - 1), one verdict per row and non-baseline column. *)
Theorem compare_summary_total fmt1f files ms :
  (2 <= List.length ms)%nat ->
  TotalMetrics (Summary (Compare fmt1f files ms)) = 10 * (Z.of_nat (List.length ms) - 1).
Proof.
  intros H. unfold Compare.
  rewrite (proj2 (Nat.ltb_ge _ _) H).
  cbn [Summary]. unfold calculateSummary.
  match goal with
  | |- context [fold_left ?f ?ds (0, 0, 0)] =>
      pose proof (summary_fold_total (List.length ms) ds 0 0 0) as T;
      destruct (fold_left f ds (0, 0, 0)) as [[b w] u]
  end.
  cbn [TotalMetrics]. destruct ms as [|m0 ms']; [simpl in H; lia|].
  rewrite T; [simpl List.length; lia|].
  unfold compareFloat, compareInt, compareSize, imap.
  repeat constructor; cbn [Improvements]; rewrite length_map, length_imap_from; reflexivity.
Qed.

Lemma compare_summary_total_witness :
  (2 <= List.length [zeroMetrics; zeroMetrics; zeroMetrics])%nat /\
  TotalMetrics (Summary (Compare (fun _ => "0.0"%string) ["a"; "b"; "c"]%string
                           [zeroMetrics; zeroMetrics; zeroMetrics]))
  = 10 * (Z.of_nat (List.length [zeroMetrics; zeroMetrics; zeroMetrics]) - 1).
Proof.
  assert (H : (2 <= List.length [zeroMetrics; zeroMetrics; zeroMetrics])%nat) by (simpl; lia).
  split; [exact H|]. apply (compare_summary_total _ _ _ H).
Defined.

Lemma list_ascii_append (s t : string) :
  list_ascii_of_string (s ++ t) = list_ascii_of_string s ++ list_ascii_of_string t.
Proof. induction s as [|c s IH]; simpl; [reflexivity|]. rewrite IH. reflexivity. Qed.

Lemma percent_not_no_change s : String.eqb (s ++ "%") "No change" = false.
Proof.
  apply String.eqb_neq. intros C.
  apply (f_equal list_ascii_of_string) in C. rewrite list_ascii_append in C.
  change (list_ascii_of_string "No change")
    with (list_ascii_of_string "No chang" ++ ["e"%char]) in C.
  apply app_inj_tail in C as [_ C]. discriminate C.
Qed.

Lemma fmt_d_neg z : z < 0 -> exists r, fmt_d z = String "-" r.
Proof. intros H. unfold fmt_d. rewrite (proj2 (Z.ltb_lt _ _) H). eexists. reflexivity. Qed.

(** A comparison cell is counted unchanged exactly when the integer values are equal, when the int64 size difference (value - base, wrapping around) is 0, or when the float percentage change is below 0.1 in absolute value; otherwise it is better or worse by the improvement rule of its row (for sizes: better exactly when the wrapped difference is negative). *)
Theorem cell_verdicts fmt1f name b v bq vq :
  verdict (fst (intChange fmt1f name b v)) (snd (intChange fmt1f name b v))
  = (if v - b =? 0 then Unchanged
     else if isImprovementInt name (v - b) then Better else Worse) /\
  verdict (fst (sizeChange fmt1f b v)) (snd (sizeChange fmt1f b v))
  = (if wrap64 (v - b) =? 0 then Unchanged
     else if wrap64 (v - b) <? 0 then Better else Worse) /\
  verdict (fst (floatChange fmt1f name bq vq)) (snd (floatChange fmt1f name bq vq))
  = (let pct := if negb (Qeq_bool bq 0) then ((vq - bq) / bq * 100)%Q else 0%Q in
     if qltb (Qabs pct) (1 # 10) then Unchanged
     else if isImprovementFloat name (vq - bq) then Better else Worse).
Proof.
  split; [|split].
  - unfold intChange. destruct (v - b =? 0) eqn:E; [reflexivity|].
    destruct (v - b >? 0) eqn:G; [reflexivity|].
    destruct (fmt_d_neg (v - b)) as [r Hr].
    { apply Z.eqb_neq in E. rewrite Z.gtb_ltb in G. apply Z.ltb_ge in G. lia. }
    unfold verdict. cbn [fst snd]. rewrite Hr. reflexivity.
  - unfold sizeChange. destruct (wrap64 (v - b) =? 0) eqn:E; [reflexivity|].
    destruct (wrap64 (v - b) >? 0); reflexivity.
  - unfold floatChange. cbv zeta.
    destruct (qltb (Qabs _) (1 # 10)); [reflexivity|].
    destruct (qltb 0 _); [reflexivity|].
    unfold verdict. cbn [fst snd]. rewrite percent_not_no_change. reflexivity.
Qed.

(** ** Validation and the views built on a validated file *)

(** A HAR that passes ValidateHAR has TotalRequests = number of entries >= 1, and RenderWaterfall does not return the "No timeline data available" message for its timeline: it goes on to lay out the requests (whose bars renderRequestBar may still fail to draw, by panicking). *)
Theorem validated_har_nonempty_views (har : HARFile) tr :
  ValidateHAR har = None ->
  TotalRequests (CalculateMetrics (HLog har)) = Z.of_nat (List.length (Entries (HLog har))) /\
  1 <= TotalRequests (CalculateMetrics (HLog har)) /\
  RenderWaterfall tr (GenerateTimeline (Entries (HLog har))) <> None.
Proof.
  unfold ValidateHAR. destruct (String.eqb (LogVersion har) "") ; [discriminate|].
  unfold CalculateMetrics.
  destruct (Entries (HLog har)) as [|e es] eqn:E; [discriminate|]. intros _.
  cbn [TotalRequests]. split; [reflexivity|]. split; [simpl; lia|].
  unfold GenerateTimeline.
  destruct (sortSlice_sorted TE.StartTime (timelineEvents (e :: es))) as [P _].
  destruct (sortSlice TE.StartTime (timelineEvents (e :: es))) as [|ev evs] eqn:S.
  - apply Permutation_length in P. discriminate P.
  - unfold RenderWaterfall. destruct (waterfallBounds ev (ev :: evs)). discriminate.
Qed.

Lemma validated_har_nonempty_views_witness :
  let har := mkHARFile "1.2" (mkLog [] [sampleEntry "https://a.test/" 0 5 200 1 0 0 0]) in
  ValidateHAR har = None /\
  TotalRequests (CalculateMetrics (HLog har)) = Z.of_nat (List.length (Entries (HLog har))) /\
  1 <= TotalRequests (CalculateMetrics (HLog har)) /\
  RenderWaterfall sampleRenderer (GenerateTimeline (Entries (HLog har))) <> None.
Proof.
  intros har. assert (H : ValidateHAR har = None) by reflexivity.
  split; [exact H|]. apply (validated_har_nonempty_views har sampleRenderer H).
Defined.
